(** * Verification of the ChocoCraft front-end controllers (src/js/main.js)

    Shallow embedding of the parts of [main.js] that carry state or
    non-trivial logic: the testimonial carousel
    ([TestimonialCarouselController]), the image fallback selection
    ([ImageErrorHandler.createFallbackElement]), the particle and ripple
    bursts of [AnimationController], and the click handlers bound to
    in-page navigation anchors ([NavigationController] and
    [ScrollController]); further, the press feedback of product cards
    and buttons, parallax scrolling, the fade-in observer,
    [Utils.debounce], the mobile menu toggle, the replacement of broken
    images and [ChocoCraftApp.initializeControllers]. *)

From Stdlib Require Import String Ascii.
From Stdlib Require Import List ZArith Lia Bool QArith.
From Stdlib Require Import Lqa.
Import ListNotations.
Open Scope string_scope.
Open Scope nat_scope.

(* ------------------------------------------------------------------ *)
(** ** DOM class lists *)

(** A [classList] as the ordered list of its tokens. *)
Definition ClassList := list string.

Definition classList_contains (c : string) (cl : ClassList) : bool :=
  existsb (String.eqb c) cl.

(** [classList.remove(c1, c2, ...)]: drops every listed token. *)
Definition classList_remove (cs : list string) (cl : ClassList) : ClassList :=
  filter (fun c => negb (existsb (String.eqb c) cs)) cl.

(** [classList.add(c)]: appends the token unless already present. *)
Definition classList_add (c : string) (cl : ClassList) : ClassList :=
  if classList_contains c cl then cl else (cl ++ [c])%list.

(** [classList.toggle(c, force)]. *)
Definition classList_toggle (c : string) (force : bool) (cl : ClassList) : ClassList :=
  if force then classList_add c cl else classList_remove [c] cl.

(** [list.forEach((x, index) => ...)] producing the updated elements. *)
Fixpoint forEach_index {A B} (f : nat -> A -> B) (i : nat) (l : list A) : list B :=
  match l with
  | [] => []
  | x :: l' => f i x :: forEach_index f (S i) l'
  end.

(* ------------------------------------------------------------------ *)
(** ** Testimonial carousel *)

Module Carousel.

Local Open Scope Z_scope.

(** The fields of [TestimonialCarouselController], together with the
    browser's set of live interval timers and the id the next
    [setInterval] returns (browser timer ids are positive). *)
Record Carousel := mkCarousel {
  currentIndex : Z;
  slides : list ClassList;
  dots : list ClassList;
  autoPlayInterval : option Z;   (* None is [null] *)
  intervals : list Z;            (* live interval timers *)
  nextTimerId : Z
}.

Definition set_index (i : Z) (s : Carousel) : Carousel :=
  mkCarousel i (slides s) (dots s) (autoPlayInterval s) (intervals s) (nextTimerId s).

(** JavaScript's [%] on integers truncates toward zero: [Z.rem]. *)
Definition js_mod (a b : Z) : Z := Z.rem a b.

(** The body of the [slides.forEach] of [updateCarousel]. *)
Definition updateSlide (idx n : Z) (index : nat) (slide : ClassList) : ClassList :=
  let slide := classList_remove ["active"; "prev"; "next"] slide in
  if Z.of_nat index =? idx then classList_add "active" slide
  else if Z.of_nat index =? js_mod (idx - 1 + n) n then classList_add "prev" slide
  else if Z.of_nat index =? js_mod (idx + 1) n then classList_add "next" slide
  else slide.

Definition updateSlides (idx : Z) (sl : list ClassList) : list ClassList :=
  forEach_index (updateSlide idx (Z.of_nat (length sl))) 0 sl.

Definition updateDots (idx : Z) (ds : list ClassList) : list ClassList :=
  forEach_index (fun index dot => classList_toggle "active" (Z.of_nat index =? idx) dot) 0 ds.

(** [updateCarousel()]. *)
Definition updateCarousel (s : Carousel) : Carousel :=
  mkCarousel (currentIndex s) (updateSlides (currentIndex s) (slides s))
    (updateDots (currentIndex s) (dots s))
    (autoPlayInterval s) (intervals s) (nextTimerId s).

(** [goToSlide(index)]. *)
Definition goToSlide (index : Z) (s : Carousel) : Carousel :=
  updateCarousel (set_index index s).

(** [nextSlide()], the auto-advance step. *)
Definition nextSlide (s : Carousel) : Carousel :=
  updateCarousel
    (set_index (js_mod (currentIndex s + 1) (Z.of_nat (length (slides s)))) s).

(** JavaScript truthiness of [this.autoPlayInterval]. *)
Definition truthy (o : option Z) : bool :=
  match o with Some t => negb (t =? 0) | None => false end.

Definition clearInterval (t : Z) (live : list Z) : list Z :=
  filter (fun u => negb (u =? t)) live.

(** [stopAutoPlay()]. *)
Definition stopAutoPlay (s : Carousel) : Carousel :=
  match autoPlayInterval s with
  | Some t =>
      if truthy (Some t) then
        mkCarousel (currentIndex s) (slides s) (dots s) None
          (clearInterval t (intervals s)) (nextTimerId s)
      else s
  | None => s
  end.

(** [startAutoPlay()]: stop, then [setInterval(() => this.nextSlide(), 2500)]. *)
Definition startAutoPlay (s : Carousel) : Carousel :=
  let s := stopAutoPlay s in
  let t := nextTimerId s in
  mkCarousel (currentIndex s) (slides s) (dots s) (Some t)
    ((intervals s ++ [t])%list) (t + 1).

Definition AUTOPLAY_DELAY : Z := 2500.

(** The constructor followed by [init()] on a page whose carousel has
    the given slides and dots ([setupEventListeners] only binds
    handlers). *)
Definition init (sl ds : list ClassList) : Carousel :=
  updateCarousel (startAutoPlay (mkCarousel 0 sl ds None [] 1)).

(** Events reaching the controller once [init] has bound its handlers. *)
Inductive event :=
  | DotClick (k : nat)      (* click on the k-th dot: goToSlide(k) *)
  | IntervalFire (t : Z)    (* the interval timer t fires: nextSlide() *)
  | MouseEnter              (* stopAutoPlay() *)
  | MouseLeave.             (* startAutoPlay() *)

Definition enabled (e : event) (s : Carousel) : bool :=
  match e with
  | DotClick k => Nat.ltb k (length (dots s))
  | IntervalFire t => existsb (Z.eqb t) (intervals s)
  | MouseEnter | MouseLeave => true
  end.

Definition handle (e : event) (s : Carousel) : Carousel :=
  match e with
  | DotClick k => goToSlide (Z.of_nat k) s
  | IntervalFire _ => nextSlide s
  | MouseEnter => stopAutoPlay s
  | MouseLeave => startAutoPlay s
  end.

(** States reachable once [init] has run on a carousel with at least one
    slide ([init] returns before binding anything when there is none). *)
Inductive reachable : Carousel -> Prop :=
  | reach_init sl ds : sl <> [] -> reachable (init sl ds)
  | reach_step e s : reachable s -> enabled e s = true -> reachable (handle e s).

(** A slide holds a designation. *)
Definition holds (c : string) (s : Carousel) (j : nat) : bool :=
  classList_contains c (nth j (slides s) []).

(** Number of slides holding a designation. *)
Definition count_holding (c : string) (s : Carousel) : nat :=
  length (filter (fun cl => classList_contains c cl) (slides s)).

(** The designation [updateSlide] gives the slide at [index]: the
    [else if] chain gives each slide at most one. *)
Definition designation (idx n : Z) (index : nat) : option string :=
  if Z.of_nat index =? idx then Some "active"
  else if Z.of_nat index =? js_mod (idx - 1 + n) n then Some "prev"
  else if Z.of_nat index =? js_mod (idx + 1) n then Some "next"
  else None.

Definition has_designation (c : string) (o : option string) : bool :=
  match o with Some d => String.eqb c d | None => false end.

(** The indices [updateCarousel] designates "prev" and "next" when the
    current index is in range, without the modulo. *)
Definition prev_index (idx n : Z) : Z := if idx =? 0 then n - 1 else idx - 1.
Definition next_index (idx n : Z) : Z := if idx + 1 =? n then 0 else idx + 1.

(** The live interval timers are exactly the one [autoPlayInterval]
    refers to, and timer ids are positive. *)
Definition timers_ok (s : Carousel) : Prop :=
  0 < nextTimerId s /\
  ((autoPlayInterval s = None /\ intervals s = []) \/
   (exists t, autoPlayInterval s = Some t /\ intervals s = [t] /\ 0 < t < nextTimerId s)).

End Carousel.

(* ------------------------------------------------------------------ *)
(** ** Image fallback *)

Module ImageFallback.

(** [String.prototype.toLowerCase] on the ASCII letters; other bytes are
    left as they are (alt texts in this model are ASCII). *)
Definition lower_char (c : ascii) : ascii :=
  let n := nat_of_ascii c in
  if (Nat.leb 65 n && Nat.leb n 90)%bool then ascii_of_nat (n + 32) else c.

Fixpoint toLowerCase (s : string) : string :=
  match s with
  | EmptyString => EmptyString
  | String c s' => String (lower_char c) (toLowerCase s')
  end.

(** [s.includes(sub)]. *)
Fixpoint includes (s sub : string) : bool :=
  prefix sub s ||
  match s with
  | EmptyString => false
  | String _ s' => includes s' sub
  end.

(** The chocolate emoji of the placeholders, as its UTF-8 bytes. *)
Definition CHOCOLATE : string :=
  String (ascii_of_nat 240) (String (ascii_of_nat 159)
    (String (ascii_of_nat 141) (String (ascii_of_nat 171) EmptyString))).

(** What [Utils.createElement(tag, {className, style}, content)] builds;
    the style is kept as its list of declarations. *)
Record Element := mkElement {
  tag : string;
  className : string;
  style : list string;
  innerHTML : string
}.

Definition product_placeholder : Element :=
  mkElement "div" "product-card__placeholder"
    ["font-size: 6rem"; "filter: drop-shadow(0 10px 20px rgba(0,0,0,0.3))";
     "display: flex"; "align-items: center"; "justify-content: center";
     "width: 100%"; "height: 100%"; "animation: float 4s ease-in-out infinite"]
    CHOCOLATE.

Definition image_fallback : Element :=
  mkElement "div" "image-fallback"
    ["background: var(--gradient-chocolate)"; "width: 100%"; "height: 100%";
     "display: flex"; "align-items: center"; "justify-content: center";
     "font-size: 4rem"]
    CHOCOLATE.

(** [ImageErrorHandler.createFallbackElement(img)], on [img.alt];
    [None] is [null]. *)
Definition createFallbackElement (img_alt : string) : option Element :=
  let alt := toLowerCase img_alt in
  if (includes alt "truffle" || includes alt "praline" || includes alt "bark")%bool then
    Some product_placeholder
  else if (includes alt "hero" || includes alt "chocolate" || includes alt "artisan")%bool then
    Some image_fallback
  else None.

End ImageFallback.

(* ------------------------------------------------------------------ *)
(** ** Particle and ripple bursts of [AnimationController] *)

Module Effects.
Local Open Scope Q_scope.

(** [CONFIG.ANIMATION.DURATION] and [CONFIG.PARTICLES]. *)
Definition PARTICLE_LIFE : Z := 1000.
Definition RIPPLE_LIFE : Z := 600.
Definition PARTICLES_COUNT : nat := 8.
Definition DISTANCE_BASE : Q := 100.
Definition DISTANCE_RANDOM : Q := 50.

(** A [DOMRect]; coordinates are kept exact, as rationals. *)
Record Rect := mkRect { rleft : Q; rtop : Q; rwidth : Q; rheight : Q }.

(** What [element.getBoundingClientRect()] does on a given element. *)
Inductive Geometry :=
  | GeomOk (r : Rect)
  | GeomThrows (err : string).

(** A particle [div] ([createParticle]): where it was placed, and the
    terminal transform (angle in degrees, distance) its animation frame
    gave it, if that frame has run. *)
Record Particle := mkParticle {
  p_id : nat;
  p_left : Q;
  p_top : Q;
  p_index : nat;
  p_transform : option (Q * Q)
}.

(** A ripple [div]: its size and offset inside the control. *)
Record Ripple := mkRipple { r_id : nat; r_size : Q; r_left : Q; r_top : Q }.

Inductive Node :=
  | NParticle (p : Particle)
  | NRipple (r : Ripple).

Definition node_id (n : Node) : nat :=
  match n with NParticle p => p_id p | NRipple r => r_id r end.

(** A page element: its geometry, its inline [style.position] and
    [style.overflow] ("" when unset), and its children. *)
Record Element := mkElement {
  geom : Geometry;
  position : string;
  overflow : string;
  children : list Node
}.

(** The callbacks the bursts hand to [setTimeout] (with their captured
    variables) and to [requestAnimationFrame]. *)
Inductive TimeoutCb :=
  | RemoveParticles (particles : list nat)
  | RippleCleanup (ripple : nat) (originalPosition : string).

Inductive FrameCb :=
  | AnimateParticle (particle : nat) (index : nat).

(** The page: [document.body]'s children, the control a ripple is drawn
    on, the pending timeouts (delay, callback) and frame callbacks, the
    console and a supply of fresh node identities. *)
Record World := mkWorld {
  body : list Node;
  control : Element;
  timeouts : list (Z * TimeoutCb);
  frames : list FrameCb;
  console : list string;
  fresh : nat
}.

(** JavaScript evaluation: normal completion or a thrown exception, both
    with the state reached. *)
Inductive Result (A : Type) :=
  | Ok (a : A) (w : World)
  | Throw (err : string) (w : World).
Arguments Ok {A}.
Arguments Throw {A}.

Definition M (A : Type) := World -> Result A.

Definition ret {A} (a : A) : M A := fun w => Ok a w.
Definition bind {A B} (m : M A) (k : A -> M B) : M B :=
  fun w => match m w with Ok a w' => k a w' | Throw e w' => Throw e w' end.
Definition raise {A} (e : string) : M A := fun w => Throw e w.
Definition try_catch {A} (m : M A) (h : string -> M A) : M A :=
  fun w => match m w with Ok a w' => Ok a w' | Throw e w' => h e w' end.
Definition modify (f : World -> World) : M unit := fun w => Ok tt (f w).
Definition get : M World := fun w => Ok w w.

Notation "x <- m ;; k" := (bind m (fun x => k))
  (at level 61, m at next level, right associativity).
Notation "m ;;; k" := (bind m (fun _ => k)) (at level 61, right associativity).

Definition with_body (b : list Node) (w : World) : World :=
  mkWorld b (control w) (timeouts w) (frames w) (console w) (fresh w).
Definition with_control (c : Element) (w : World) : World :=
  mkWorld (body w) c (timeouts w) (frames w) (console w) (fresh w).

Definition console_warn (msg : string) : M unit :=
  modify (fun w => mkWorld (body w) (control w) (timeouts w) (frames w)
                     ((console w ++ [msg])%list) (fresh w)).

Definition setTimeout (cb : TimeoutCb) (delay : Z) : M unit :=
  modify (fun w => mkWorld (body w) (control w) ((timeouts w ++ [(delay, cb)])%list)
                     (frames w) (console w) (fresh w)).

Definition requestAnimationFrame (cb : FrameCb) : M unit :=
  modify (fun w => mkWorld (body w) (control w) (timeouts w)
                     ((frames w ++ [cb])%list) (console w) (fresh w)).

(** [document.createElement]: a new node identity. *)
Definition new_node : M nat :=
  fun w => Ok (fresh w) (mkWorld (body w) (control w) (timeouts w) (frames w)
                           (console w) (S (fresh w))).

(** [element.getBoundingClientRect()]. *)
Definition getBoundingClientRect (el : Element) : M Rect :=
  match geom el with
  | GeomOk r => ret r
  | GeomThrows e => raise e
  end.

(** [Utils.getBoundingRect(element)]. *)
Definition getBoundingRect (el : Element) : M (option Rect) :=
  try_catch (r <- getBoundingClientRect el ;; ret (Some r))
    (fun _ => console_warn "Error getting bounding rect:" ;;; ret None).

(** [createParticle(centerX, centerY, index)]. *)
Definition createParticle (centerX centerY : Q) (index : nat) : M Node :=
  id <- new_node ;;
  requestAnimationFrame (AnimateParticle id index) ;;;
  ret (NParticle (mkParticle id centerX centerY index None)).

(** [document.body.appendChild(node)]. *)
Definition appendToBody (n : Node) : M unit :=
  modify (fun w => with_body ((body w ++ [n])%list) w).

(** The [for] loop of [createParticleAnimation], from [i] with [k]
    iterations left, pushing onto [particles]. *)
Fixpoint spawn (centerX centerY : Q) (i k : nat) (particles : list Node) : M (list Node) :=
  match k with
  | O => ret particles
  | S k' =>
      particle <- createParticle centerX centerY i ;;
      appendToBody particle ;;;
      spawn centerX centerY (S i) k' ((particles ++ [particle])%list)
  end.

(** [createParticleAnimation(element)]. *)
Definition createParticleAnimation (el : Element) : M unit :=
  rect <- getBoundingRect el ;;
  match rect with
  | None => ret tt
  | Some r =>
      let centerX := rleft r + rwidth r / 2 in
      let centerY := rtop r + rheight r / 2 in
      particles <- spawn centerX centerY 0 PARTICLES_COUNT [] ;;
      setTimeout (RemoveParticles (map node_id particles)) PARTICLE_LIFE
  end.

(** [parent.removeChild(node)] for the node with the given identity, when
    it is attached ([node.parentNode] is not null). *)
Definition removeChild (id : nat) (l : list Node) : list Node :=
  filter (fun n => negb (Nat.eqb (node_id n) id)) l.

Definition attached (id : nat) (l : list Node) : bool :=
  existsb (fun n => Nat.eqb (node_id n) id) l.

(** [event.clientX], [event.clientY]. *)
Record MouseEvent := mkMouseEvent { clientX : Q; clientY : Q }.

Definition Qmax (a b : Q) : Q := if Qle_bool a b then b else a.

(** [createRippleEffect(button, event)] on the page's control. *)
Definition createRippleEffect (event : MouseEvent) : M unit :=
  w0 <- get ;;
  rect <- getBoundingRect (control w0) ;;
  match rect with
  | None => ret tt
  | Some r =>
      let size := Qmax (rwidth r) (rheight r) in
      let x := clientX event - rleft r - size / 2 in
      let y := clientY event - rtop r - size / 2 in
      id <- new_node ;;
      w <- get ;;
      let button := control w in
      let originalPosition := position button in
      let button := mkElement (geom button) "relative" "hidden"
                      ((children button ++ [NRipple (mkRipple id size x y)])%list) in
      modify (with_control button) ;;;
      setTimeout (RippleCleanup id originalPosition) RIPPLE_LIFE
  end.

(** Running a timeout callback. *)
Definition runTimeout (cb : TimeoutCb) (w : World) : World :=
  match cb with
  | RemoveParticles ids =>
      with_body (fold_left (fun b id => if attached id b then removeChild id b else b)
                  ids (body w)) w
  | RippleCleanup id originalPosition =>
      let button := control w in
      let kids := if attached id (children button)
                  then removeChild id (children button) else children button in
      with_control (mkElement (geom button) originalPosition (overflow button) kids) w
  end.

(** Running a frame callback: the particle gets its terminal transform,
    with [random] the value [Math.random()] returned. *)
Definition runFrame (random : Q) (cb : FrameCb) (w : World) : World :=
  match cb with
  | AnimateParticle id index =>
      let angle := (360 / inject_Z (Z.of_nat PARTICLES_COUNT)) * inject_Z (Z.of_nat index) in
      let distance := DISTANCE_BASE + random * DISTANCE_RANDOM in
      with_body (map (fun n => match n with
                               | NParticle p =>
                                   if Nat.eqb (p_id p) id
                                   then NParticle (mkParticle (p_id p) (p_left p) (p_top p)
                                                     (p_index p) (Some (angle, distance)))
                                   else n
                               | NRipple _ => n
                               end) (body w)) w
  end.

(** The page after a failed geometry read: only the warning is added. *)
Definition warned (w : World) : World :=
  mkWorld (body w) (control w) (timeouts w) (frames w)
    ((console w ++ ["Error getting bounding rect:"])%list) (fresh w).

(** The ripple node a burst creates. *)
Definition ripple_of (ev : MouseEvent) (r : Rect) (id : nat) : Node :=
  let size := Qmax (rwidth r) (rheight r) in
  NRipple (mkRipple id size (clientX ev - rleft r - size / 2) (clientY ev - rtop r - size / 2)).

(** The particles and frame callbacks of [spawn]. *)
Definition spawned (cx cy : Q) (id0 i k : nat) : list Node :=
  map (fun j => NParticle (mkParticle (id0 + j) cx cy (i + j) None)) (seq 0 k).

Definition spawned_frames (id0 i k : nat) : list FrameCb :=
  map (fun j => AnimateParticle (id0 + j) (i + j)) (seq 0 k).

(** One iteration of the cleanup's [particles.forEach]. *)
Definition remove_step (b : list Node) (id : nat) : list Node :=
  if attached id b then removeChild id b else b.

End Effects.

(* ------------------------------------------------------------------ *)
(** ** Clicks on in-page navigation anchors *)

Module Navigation.

(** A page element as the click handlers see it: tag name, [id] (""
    when absent), class list and [href] attribute. The document is the
    list of its elements in document order; an element is designated by
    its position in that list. *)
Record DomElement := mkDomElement {
  tagName : string;
  elem_id : string;
  classes : list string;
  href : option string
}.

Definition Document := list DomElement.

Fixpoint first_index_from (p : DomElement -> bool) (i : nat) (doc : Document) : option nat :=
  match doc with
  | [] => None
  | e :: doc' => if p e then Some i else first_index_from p (S i) doc'
  end.

(** Characters of a CSS identifier (ASCII letters, digits, [-], [_]). *)
Definition ident_char (c : ascii) : bool :=
  let n := nat_of_ascii c in
  (Nat.leb 97 n && Nat.leb n 122) || (Nat.leb 65 n && Nat.leb n 90) ||
  (Nat.leb 48 n && Nat.leb n 57) || Nat.eqb n 45 || Nat.eqb n 95.

Definition is_digit (c : ascii) : bool :=
  let n := nat_of_ascii c in (Nat.leb 48 n && Nat.leb n 57)%bool.

Fixpoint all_ident_chars (s : string) : bool :=
  match s with
  | EmptyString => true
  | String c s' => ident_char c && all_ident_chars s'
  end.

(** A CSS identifier: non-empty, not starting with a digit, not [-]
    followed by a digit, and not a lone [-]. *)
Definition valid_ident (s : string) : bool :=
  match s with
  | EmptyString => false
  | String c s' =>
      all_ident_chars s && negb (is_digit c) &&
      match s' with
      | String d _ => negb (Nat.eqb (nat_of_ascii c) 45 && is_digit d)
      | EmptyString => negb (Nat.eqb (nat_of_ascii c) 45)
      end
  end.

(** [document.querySelector(selector)]: the first element in document
    order matching an id selector [#ident] or a class selector
    [.ident], [null] when none does; any other selector text is treated
    as a [SyntaxError] (compound selectors are outside this model). *)
Inductive QueryResult :=
  | QSFound (target : option nat)
  | QSSyntaxError.

Definition querySelector (doc : Document) (selector : string) : QueryResult :=
  match selector with
  | String c rest =>
      if valid_ident rest then
        if Ascii.eqb c "#"%char then
          QSFound (first_index_from (fun e => String.eqb (elem_id e) rest) 0 doc)
        else if Ascii.eqb c "."%char then
          QSFound (first_index_from (fun e => existsb (String.eqb rest) (classes e)) 0 doc)
        else QSSyntaxError
      else QSSyntaxError
  | EmptyString => QSSyntaxError
  end.

(** What one click listener did: whether it called [preventDefault], the
    element it called [scrollIntoView] on, or the exception it threw
    (after a possible [preventDefault]). *)
Inductive ListenerResult :=
  | LDone (prevented : bool) (scrolled : option nat)
  | LThrew (prevented : bool) (err : string).

(** The listener of [NavigationController.setupSmoothScrolling]. *)
Definition navSmoothScrollListener (doc : Document) (h : option string) : ListenerResult :=
  match h with
  | None => LThrew false "TypeError"
  | Some href =>
      if prefix "#" href then
        match querySelector doc (if String.eqb href "#main-content" then ".hero" else href) with
        | QSFound target => LDone true target
        | QSSyntaxError => LThrew true "SyntaxError"
        end
      else LDone false None
  end.

(** The listener of [ScrollController.setupSmoothScrolling], bound to
    every [a[href^="#"]]. *)
Definition anchorSmoothScrollListener (doc : Document) (href : string) : ListenerResult :=
  match querySelector doc href with
  | QSFound target => LDone true target
  | QSSyntaxError => LThrew true "SyntaxError"
  end.

Definition is_hash_anchor (e : DomElement) : bool :=
  String.eqb (tagName e) "A" &&
  match href e with Some h => prefix "#" h | None => false end.

(** The scroll listeners a click on the navigation link [link] runs, in
    registration order: [NavigationController] is constructed before
    [ScrollController] (the menu-closing listener registered first only
    touches the menu). [navbar] says whether [.navbar] exists, without
    which [NavigationController.init] binds nothing. *)
Definition clickNavLink (navbar : bool) (doc : Document) (link : DomElement) : list ListenerResult :=
  ((if navbar then [navSmoothScrollListener doc (href link)] else []) ++
   (if is_hash_anchor link then
      match href link with Some h => [anchorSmoothScrollListener doc h] | None => [] end
    else []))%list.

(** The [scrollIntoView] calls of a click, in order; a later smooth
    scroll supersedes an earlier one, so the last is where the page
    ends up. *)
Definition scrolls (rs : list ListenerResult) : list nat :=
  flat_map (fun r => match r with LDone _ (Some t) => [t] | _ => [] end) rs.

Definition main_content_link : DomElement :=
  mkDomElement "A" "" ["navbar__link"] (Some "#main-content").

(** A page with a navigation bar, a [main] element with id
    "main-content" and a hero section inside it. *)
Definition page_with_main : Document :=
  [mkDomElement "NAV" "" ["navbar"] None;
   main_content_link;
   mkDomElement "MAIN" "main-content" [] None;
   mkDomElement "SECTION" "" ["hero"] None].

End Navigation.

(* ------------------------------------------------------------------ *)
(** ** Carousel: the indicator dots *)

Module CarouselView.
Import Carousel.

(** The k-th dot holds "active". *)
Definition dot_active (s : Carousel) (k : nat) : bool :=
  classList_contains "active" (nth k (dots s) []).

End CarouselView.

(* ------------------------------------------------------------------ *)
(** ** Press feedback of product cards and buttons *)

Module Feedback.
Import Effects.

(** [CONFIG.ANIMATION.DURATION.FAST]. *)
Definition FAST : Z := 150.

(** The page, the inline [style.transform] of the pressed element (""
    when unset) and the delays of the pending timeouts that reset it. *)
Record Styled := mkStyled { page : World; transform : string; resets : list Z }.

(** A listener's completion: normal, or an exception escaping it. *)
Inductive Outcome :=
  | Done (s : Styled)
  | Threw (err : string) (s : Styled).

(** Running a method of [AnimationController] on the page. *)
Definition run_effect (m : M unit) (s : Styled) : Outcome :=
  match m (page s) with
  | Ok _ w => Done (mkStyled w (transform s) (resets s))
  | Throw e w => Threw e (mkStyled w (transform s) (resets s))
  end.

(** [el.style.transform = 'scale(0.98)'] and the [setTimeout] that sets
    it back to [''] after [FAST] ms. *)
Definition press (s : Styled) : Styled :=
  mkStyled (page s) "scale(0.98)" ((resets s ++ [FAST])%list).

(** A reset timeout firing: [el.style.transform = '']. *)
Definition runReset (s : Styled) : Styled :=
  match resets s with
  | [] => s
  | _ :: rs => mkStyled (page s) "" rs
  end.

(** [ProductCardController.handleCardClick(card)]. *)
Definition handleCardClick (card : Element) (s : Styled) : Outcome :=
  match run_effect (createParticleAnimation card) s with
  | Done s' => Done (press s')
  | Threw e s' => Threw e s'
  end.

(** The card's click listener, given [event.target.tagName]. *)
Definition cardClickListener (targetTag : string) (card : Element) (s : Styled) : Outcome :=
  if String.eqb targetTag "BUTTON" then Done s else handleCardClick card s.

(** The card's keydown listener: whether [preventDefault] was called,
    and the outcome. *)
Definition cardKeydownListener (key : string) (card : Element) (s : Styled) : bool * Outcome :=
  if (String.eqb key "Enter" || String.eqb key " ")%bool
  then (true, handleCardClick card s) else (false, Done s).

(** [ButtonController.addButtonPressEffect(button)]. *)
Definition addButtonPressEffect (s : Styled) : Styled := press s.

(** The click listener of a [.btn], the button being the page's control. *)
Definition buttonClickListener (ev : MouseEvent) (s : Styled) : Outcome :=
  match run_effect (createRippleEffect ev) s with
  | Done s' => Done (addButtonPressEffect s')
  | Threw e s' => Threw e s'
  end.

End Feedback.

(* ------------------------------------------------------------------ *)
(** ** Parallax scrolling *)

Module Parallax.

(** [window.pageYOffset], the closure's [ticking] flag, the number of
    parallax callbacks waiting for the next animation frame, and the
    scroll offset the hero's and the textures' transforms were last
    computed from ([translate3d(0, scrolled * k px, 0)]). *)
Record Parallax := mkParallax {
  pageYOffset : Z;
  ticking : bool;
  queued : nat;
  hero_from : option Z;
  textures_from : option Z
}.

Definition initial (y : Z) : Parallax := mkParallax y false 0 None None.

(** [handleScroll]. *)
Definition handleScroll (s : Parallax) : Parallax :=
  if negb (ticking s)
  then mkParallax (pageYOffset s) true (S (queued s)) (hero_from s) (textures_from s)
  else s.

(** The parallax frame callback, on a page that has a [.hero__content]
    ([hasHero]) or not. *)
Definition parallaxFrame (hasHero : bool) (s : Parallax) : Parallax :=
  let scrolled := pageYOffset s in
  mkParallax (pageYOffset s) false (queued s)
    (if hasHero then Some scrolled else hero_from s) (Some scrolled).

Inductive pevent :=
  | Scroll (y : Z)   (* the page scrolls to [y]; the scroll listener runs *)
  | Frame.           (* an animation frame runs the queued callbacks *)

Definition step (hasHero : bool) (s : Parallax) (e : pevent) : Parallax :=
  match e with
  | Scroll y =>
      handleScroll (mkParallax y (ticking s) (queued s) (hero_from s) (textures_from s))
  | Frame =>
      match queued s with
      | O => s
      | S q => parallaxFrame hasHero (mkParallax (pageYOffset s) (ticking s) q
                                        (hero_from s) (textures_from s))
      end
  end.

Definition run (hasHero : bool) (s : Parallax) (es : list pevent) : Parallax :=
  fold_left (step hasHero) es s.

End Parallax.

(* ------------------------------------------------------------------ *)
(** ** One-shot fade-in reveal *)

Module Reveal.

(** A [.fade-in-up] element: its identity and [style.animationPlayState]. *)
Record Target := mkTarget { t_id : nat; playState : string }.

(** The fade-in elements and the ones the observer still observes. *)
Record Reveal := mkReveal { targets : list Target; observed : list nat }.

(** [document.querySelectorAll('.fade-in-up').forEach(observer.observe)]. *)
Definition setup (ts : list Target) : Reveal := mkReveal ts (map t_id ts).

Definition setPlayState (id : nat) (st : string) (ts : list Target) : list Target :=
  map (fun t => if Nat.eqb (t_id t) id then mkTarget (t_id t) st else t) ts.

(** [observer.unobserve(target)]. *)
Definition unobserve (id : nat) (obs : list nat) : list nat :=
  filter (fun x => negb (Nat.eqb x id)) obs.

(** One entry [(target, isIntersecting)] of the observer callback. *)
Definition onEntry (s : Reveal) (entry : nat * bool) : Reveal :=
  if snd entry
  then mkReveal (setPlayState (fst entry) "running" (targets s)) (unobserve (fst entry) (observed s))
  else s.

(** The observer callback on a batch of entries. *)
Definition callback (s : Reveal) (entries : list (nat * bool)) : Reveal :=
  fold_left onEntry entries s.

End Reveal.

(* ------------------------------------------------------------------ *)
(** ** [Utils.debounce] *)

Module Debounce.
Local Open Scope Z_scope.
Section Debounce.
Variable A : Type.

(** The closure's [timeout] variable ([None] is [undefined]), the
    browser's pending timers of this closure with the arguments their
    [later] captured, the id the next [setTimeout] returns, and the
    calls of [func] so far. *)
Record Debounce := mkDebounce {
  timeout : option Z;
  pending : list (Z * A);
  nextId : Z;
  calls : list A
}.

Definition initial : Debounce := mkDebounce None [] 1 [].

(** [clearTimeout(timeout)]. *)
Definition clearTimeout (t : option Z) (l : list (Z * A)) : list (Z * A) :=
  match t with
  | None => l
  | Some id => filter (fun p => negb (fst p =? id)) l
  end.

(** [executedFunction(...args)]. *)
Definition executedFunction (args : A) (s : Debounce) : Debounce :=
  let l := clearTimeout (timeout s) (pending s) in
  let id := nextId s in
  mkDebounce (Some id) ((l ++ [(id, args)])%list) (id + 1) (calls s).

(** The timer [id] firing: its [later] runs, if it is still pending. *)
Definition fire (id : Z) (s : Debounce) : Debounce :=
  match find (fun p => fst p =? id) (pending s) with
  | None => s
  | Some (_, args) =>
      let l := filter (fun p => negb (fst p =? id)) (pending s) in
      mkDebounce (timeout s) (clearTimeout (timeout s) l) (nextId s) ((calls s ++ [args])%list)
  end.

Inductive devent :=
  | Call (args : A)
  | Fire (id : Z).

Definition step (s : Debounce) (e : devent) : Debounce :=
  match e with Call a => executedFunction a s | Fire id => fire id s end.

End Debounce.
Arguments mkDebounce {A}.
Arguments timeout {A}.
Arguments pending {A}.
Arguments nextId {A}.
Arguments calls {A}.
Arguments initial {A}.
Arguments clearTimeout {A}.
Arguments executedFunction {A}.
Arguments fire {A}.
Arguments Call {A}.
Arguments Fire {A}.
Arguments step {A}.
End Debounce.

(* ------------------------------------------------------------------ *)
(** ** Mobile navigation menu *)

Module MobileMenu.

(** [classList.toggle(c)] without [force]. *)
Definition classList_flip (c : string) (cl : ClassList) : ClassList :=
  if classList_contains c cl then classList_remove [c] cl else classList_add c cl.

(** [String(b)] for the boolean [setAttribute] receives. *)
Definition bool_to_string (b : bool) : string := if b then "true" else "false".

(** The toggle's [aria-expanded] attribute ([None] when absent) and the
    menu's class list. *)
Record Menu := mkMenu { ariaExpanded : option string; menuClasses : ClassList }.

Definition isExpanded (m : Menu) : bool :=
  match ariaExpanded m with Some v => String.eqb v "true" | None => false end.

(** The toggle's click listener. *)
Definition toggleClick (m : Menu) : Menu :=
  mkMenu (Some (bool_to_string (negb (isExpanded m)))) (classList_flip "active" (menuClasses m)).

(** The menu-closing click listener of a [.navbar__link]. *)
Definition linkClick (m : Menu) : Menu :=
  mkMenu (Some "false") (classList_remove ["active"] (menuClasses m)).

(** The attribute says "expanded" exactly when the menu is shown. *)
Definition in_sync (m : Menu) : bool :=
  Bool.eqb (isExpanded m) (classList_contains "active" (menuClasses m)).

End MobileMenu.

(* ------------------------------------------------------------------ *)
(** ** Replacing broken images *)

Module ImageReplace.
Import ImageFallback.

(** A child node: an image (identity and [alt]), a fallback element, or
    any other node. *)
Inductive Child :=
  | CImg (id : nat) (alt : string)
  | CFallback (el : Element)
  | COther (id : nat).

(** The document's parent nodes with their children, and the images whose
    [{ once: true }] error listener is still registered. *)
Record Page := mkPage { parents : list (list Child); armed : list nat }.

Definition is_img (id : nat) (c : Child) : bool :=
  match c with CImg i _ => Nat.eqb i id | _ => false end.

(** [img.parentNode] is not null. *)
Definition has_parent (id : nat) (p : Page) : bool :=
  existsb (existsb (is_img id)) (parents p).

(** [img.parentNode.replaceChild(fallback, img)]. *)
Definition replaceChild (f : Element) (id : nat) (p : Page) : Page :=
  mkPage (map (map (fun c => if is_img id c then CFallback f else c)) (parents p)) (armed p).

(** [ImageErrorHandler.handleImageError(img)]. *)
Definition handleImageError (id : nat) (alt : string) (p : Page) : Page :=
  match createFallbackElement alt with
  | Some f => if has_parent id p then replaceChild f id p else p
  | None => p
  end.

(** The [error] event of image [id]: a [{ once: true }] listener is
    removed before it runs. *)
Definition onError (id : nat) (alt : string) (p : Page) : Page :=
  if existsb (Nat.eqb id) (armed p)
  then handleImageError id alt (mkPage (parents p) (filter (fun x => negb (Nat.eqb x id)) (armed p)))
  else p.

(** The [k]-th child of the [i]-th parent. *)
Definition child_at (p : Page) (i k : nat) : option Child :=
  match nth_error (parents p) i with Some cs => nth_error cs k | None => None end.

End ImageReplace.

(* ------------------------------------------------------------------ *)
(** ** Application start-up *)

Module App.

(** The keys [initializeControllers] puts in [this.controllers], in
    order. *)
Definition controller_names : list string :=
  ["animation"; "navigation"; "productCard"; "button"; "scroll"; "imageError";
   "testimonialCarousel"].

(** The [Map]'s keys in insertion order, the [<style>] elements appended
    to [document.head], and the console. *)
Record App := mkApp { controllers : list string; head_styles : nat; console : list string }.

Definition initialApp : App := mkApp [] 0 [].

(** [Map.prototype.set] on a key: a new key goes last, an existing one
    keeps its place. *)
Definition map_set (k : string) (keys : list string) : list string :=
  if existsb (String.eqb k) keys then keys else (keys ++ [k])%list.

(** Constructing the controllers in order and storing each one; [ctor]
    gives the exception a controller's constructor throws, if any. *)
Fixpoint construct (ctor : string -> option string) (names : list string) (a : App)
  : App + (string * App) :=
  match names with
  | [] => inl a
  | n :: ns =>
      match ctor n with
      | Some e => inr (e, a)
      | None => construct ctor ns (mkApp (map_set n (controllers a)) (head_styles a) (console a))
      end
  end.

(** [initializeControllers()]: the [try] block, then the [catch]. *)
Definition initializeControllers (ctor : string -> option string) (a : App) : App :=
  match construct ctor controller_names a with
  | inl a' =>
      mkApp (controllers a') (S (head_styles a'))
        ((console a' ++ ["ChocoCraft application initialized successfully"])%list)
  | inr (_, a') =>
      mkApp (controllers a') (head_styles a')
        ((console a' ++ ["Error initializing ChocoCraft application:"])%list)
  end.

End App.

(* ------------------------------------------------------------------ *)
(** ** Facts about the class-list and iteration helpers *)

Lemma forEach_index_length {A B} (f : nat -> A -> B) i l :
  List.length (forEach_index f i l) = List.length l.
Proof. revert i; induction l as [|x l IH]; intros i; simpl; auto. Qed.

Lemma forEach_index_map {A B} (f : nat -> A -> B) (d : A) i l :
  forEach_index f i l = map (fun j => f j (nth (j - i) l d)) (seq i (List.length l)).
Proof.
  revert i; induction l as [|x l IH]; intros i; simpl; [reflexivity|].
  rewrite Nat.sub_diag, IH; f_equal.
  apply map_ext_in; intros j Hj; apply in_seq in Hj.
  replace (j - i) with (S (j - S i)) by lia; reflexivity.
Qed.

Lemma nth_forEach_index {A B} (f : nat -> A -> B) (d : A) (d' : B) i l j :
  j < List.length l -> nth j (forEach_index f i l) d' = f (i + j) (nth j l d).
Proof.
  revert i j; induction l as [|x l IH]; intros i j Hj; simpl in *; [lia|].
  destruct j as [|j]; [now rewrite Nat.add_0_r|].
  rewrite IH by lia; f_equal; lia.
Qed.

Lemma length_filter_map {A B} (p : B -> bool) (g : A -> B) l :
  List.length (filter p (map g l)) = List.length (filter (fun x => p (g x)) l).
Proof. induction l as [|x l IH]; simpl; [reflexivity|]; destruct (p (g x)); simpl; auto. Qed.

Lemma length_filter_none (f : nat -> bool) s k :
  (forall j, s <= j < s + k -> f j = false) -> List.length (filter f (seq s k)) = 0.
Proof.
  revert s; induction k as [|k IH]; intros s H; simpl; [reflexivity|].
  rewrite (H s) by lia; apply IH; intros j Hj; apply H; lia.
Qed.

(** Counting the indices of a range on which a test holds, when it holds
    at exactly one index [a] of the range. *)
Lemma length_filter_unique (f : nat -> bool) s k a :
  s <= a < s + k -> f a = true -> (forall j, f j = true -> j = a) ->
  List.length (filter f (seq s k)) = 1.
Proof.
  revert s; induction k as [|k IH]; intros s Ha Hfa Hu; [lia|]; simpl.
  destruct (Nat.eq_dec s a) as [->|Hne].
  - rewrite Hfa; simpl; f_equal; apply length_filter_none.
    intros j Hj; destruct (f j) eqn:E; [apply Hu in E; lia|reflexivity].
  - destruct (f s) eqn:E; [apply Hu in E; contradiction|]; apply IH; auto; lia.
Qed.

Lemma classList_contains_remove c cs cl :
  In c cs -> classList_contains c (classList_remove cs cl) = false.
Proof.
  intros Hc; unfold classList_contains, classList_remove.
  apply Bool.not_true_iff_false; intros H.
  apply existsb_exists in H as [x [Hx Heq]]; apply String.eqb_eq in Heq; subst x.
  apply filter_In in Hx as [_ Hn].
  assert (existsb (String.eqb c) cs = true) as Hin
    by (apply existsb_exists; exists c; split; [exact Hc| apply String.eqb_refl]).
  rewrite Hin in Hn; discriminate.
Qed.

Lemma classList_contains_add c d cl :
  classList_contains c (classList_add d cl) = (String.eqb c d || classList_contains c cl)%bool.
Proof.
  unfold classList_add; destruct (classList_contains d cl) eqn:Hd.
  - destruct (String.eqb_spec c d) as [->|]; simpl; [now rewrite Hd|reflexivity].
  - unfold classList_contains; rewrite existsb_app; simpl.
    rewrite Bool.orb_false_r, Bool.orb_comm; reflexivity.
Qed.

(* ------------------------------------------------------------------ *)
(** ** Carousel: arithmetic of the index *)

Module CarouselFacts.
Import Carousel.
Local Open Scope Z_scope.

Lemma js_mod_nonneg a b : 0 <= a -> 0 < b -> js_mod a b = a mod b.
Proof. intros; unfold js_mod; apply Z.rem_mod_nonneg; lia. Qed.

Lemma js_mod_prev idx n :
  0 <= idx < n -> js_mod (idx - 1 + n) n = if idx =? 0 then n - 1 else idx - 1.
Proof.
  intros H; rewrite js_mod_nonneg by lia.
  destruct (Z.eqb_spec idx 0) as [->|Hne].
  - symmetry; apply Z.mod_unique with 0; lia.
  - symmetry; apply Z.mod_unique with 1; lia.
Qed.

Lemma js_mod_next idx n :
  0 <= idx < n -> js_mod (idx + 1) n = if idx + 1 =? n then 0 else idx + 1.
Proof.
  intros H; rewrite js_mod_nonneg by lia.
  destruct (Z.eqb_spec (idx + 1) n) as [->|Hne].
  - symmetry; apply Z.mod_unique with 1; lia.
  - symmetry; apply Z.mod_unique with 0; lia.
Qed.

Lemma updateSlide_contains idx n index cl c :
  In c ["active"; "prev"; "next"] ->
  classList_contains c (updateSlide idx n index cl)
  = has_designation c (designation idx n index).
Proof.
  intros Hc; unfold updateSlide, designation.
  destruct (Z.of_nat index =? idx); [|destruct (Z.of_nat index =? _); [|destruct (Z.of_nat index =? _)]];
    simpl; rewrite ?classList_contains_add, (classList_contains_remove c _ cl Hc);
    rewrite ?Bool.orb_false_r; reflexivity.
Qed.

Lemma updateSlides_length idx sl : List.length (updateSlides idx sl) = List.length sl.
Proof. apply forEach_index_length. Qed.

Lemma count_updateSlides c idx sl :
  In c ["active"; "prev"; "next"] ->
  List.length (filter (classList_contains c) (updateSlides idx sl))
  = List.length (filter (fun j => has_designation c (designation idx (Z.of_nat (List.length sl)) j))
                   (seq 0 (List.length sl))).
Proof.
  intros Hc; unfold updateSlides; rewrite (forEach_index_map _ ([] : ClassList)), length_filter_map.
  f_equal; apply filter_ext; intros j; apply updateSlide_contains; exact Hc.
Qed.

Lemma nth_updateSlides c idx sl j :
  In c ["active"; "prev"; "next"] ->
  classList_contains c (nth j (updateSlides idx sl) [])
  = (Nat.ltb j (List.length sl) && has_designation c (designation idx (Z.of_nat (List.length sl)) j))%bool.
Proof.
  intros Hc; unfold updateSlides.
  destruct (Nat.ltb_spec j (List.length sl)) as [Hj|Hj].
  - rewrite (nth_forEach_index (updateSlide idx (Z.of_nat (List.length sl))) [] [] 0 sl j Hj).
    apply updateSlide_contains; exact Hc.
  - rewrite nth_overflow by (rewrite forEach_index_length; exact Hj); reflexivity.
Qed.

End CarouselFacts.

(* ------------------------------------------------------------------ *)
(** ** Carousel: invariants of the reachable states *)

Module CarouselInvariants.
Import Carousel CarouselFacts.
Local Open Scope Z_scope.

Lemma stopAutoPlay_fields s :
  currentIndex (stopAutoPlay s) = currentIndex s /\ slides (stopAutoPlay s) = slides s /\
  dots (stopAutoPlay s) = dots s.
Proof.
  unfold stopAutoPlay; destruct (autoPlayInterval s) as [t|]; [|auto].
  destruct (truthy (Some t)); simpl; auto.
Qed.

Lemma startAutoPlay_fields s :
  currentIndex (startAutoPlay s) = currentIndex s /\ slides (startAutoPlay s) = slides s /\
  dots (startAutoPlay s) = dots s.
Proof. unfold startAutoPlay; simpl; apply stopAutoPlay_fields. Qed.

Lemma handle_slides_length e s :
  List.length (slides (handle e s)) = List.length (slides s).
Proof.
  destruct e; unfold handle.
  - apply updateSlides_length.
  - apply updateSlides_length.
  - now rewrite (proj1 (proj2 (stopAutoPlay_fields s))).
  - now rewrite (proj1 (proj2 (startAutoPlay_fields s))).
Qed.

Lemma handle_dots_length e s :
  List.length (dots (handle e s)) = List.length (dots s).
Proof.
  destruct e; unfold handle.
  - apply forEach_index_length.
  - apply forEach_index_length.
  - now rewrite (proj2 (proj2 (stopAutoPlay_fields s))).
  - now rewrite (proj2 (proj2 (startAutoPlay_fields s))).
Qed.

Lemma handle_index e s :
  currentIndex (handle e s) =
  match e with
  | DotClick k => Z.of_nat k
  | IntervalFire _ => js_mod (currentIndex s + 1) (Z.of_nat (List.length (slides s)))
  | MouseEnter | MouseLeave => currentIndex s
  end.
Proof.
  destruct e; unfold handle; try reflexivity.
  - apply stopAutoPlay_fields.
  - apply startAutoPlay_fields.
Qed.

Lemma reachable_nonempty s : reachable s -> (0 < List.length (slides s))%nat.
Proof.
  induction 1 as [sl ds Hne|e s Hr IH He].
  - unfold init, updateCarousel; simpl; rewrite updateSlides_length.
    destruct sl; [contradiction|simpl; lia].
  - rewrite handle_slides_length; exact IH.
Qed.

(** Every reachable state is the output of a re-render pass at its own
    index. *)
Lemma reachable_rendered s :
  reachable s -> exists raw, slides s = updateSlides (currentIndex s) raw.
Proof.
  induction 1 as [sl ds Hne|e s Hr IH He].
  - eexists; reflexivity.
  - destruct e; unfold handle; try (eexists; reflexivity).
    + destruct (stopAutoPlay_fields s) as [-> [-> _]]; exact IH.
    + destruct (startAutoPlay_fields s) as [-> [-> _]]; exact IH.
Qed.

(** The index invariant, on pages whose dots are no more than the slides. *)
Lemma reachable_index_in_range s :
  reachable s -> (List.length (dots s) <= List.length (slides s))%nat ->
  0 <= currentIndex s < Z.of_nat (List.length (slides s)).
Proof.
  induction 1 as [sl ds Hne|e s Hr IH He]; intros Hd.
  - unfold init, updateCarousel; simpl; rewrite updateSlides_length.
    destruct sl; [contradiction|simpl; lia].
  - rewrite handle_slides_length, handle_dots_length in *.
    specialize (IH Hd); rewrite handle_index.
    destruct e as [k|t| |]; try exact IH.
    + simpl in He; apply Nat.ltb_lt in He; lia.
    + rewrite js_mod_next by lia; destruct (_ =? _) eqn:E; [lia|apply Z.eqb_neq in E; lia].
Qed.

End CarouselInvariants.

(* ------------------------------------------------------------------ *)
(** ** Carousel: the designations a re-render pass hands out *)

Module CarouselRender.
Import Carousel CarouselFacts.
Local Open Scope Z_scope.

Lemma designation_in_range idx n j :
  0 <= idx < n ->
  designation idx n j =
  if Z.of_nat j =? idx then Some "active"
  else if Z.of_nat j =? prev_index idx n then Some "prev"
  else if Z.of_nat j =? next_index idx n then Some "next"
  else None.
Proof. intros H; unfold designation; rewrite js_mod_prev, js_mod_next by exact H; reflexivity. Qed.

Ltac desig_solve :=
  unfold prev_index, next_index, has_designation in *;
  repeat match goal with
  | H : context [if (?x =? ?y)%Z then _ else _] |- _ => destruct (Z.eqb_spec x y)
  | |- context [if (?x =? ?y)%Z then _ else _] => destruct (Z.eqb_spec x y)
  end; simpl in *; try discriminate; try reflexivity; try lia.

Section Render.
Variable idx : Z.
Variable raw : list ClassList.
Let n := List.length raw.
Hypothesis Hidx : 0 <= idx < Z.of_nat n.

Let count c := List.length (filter (classList_contains c) (updateSlides idx raw)).

Lemma render_active : count "active" = 1%nat.
Proof.
  unfold count; rewrite count_updateSlides by (simpl; auto).
  apply length_filter_unique with (a := Z.to_nat idx); [lia| |].
  - rewrite designation_in_range by lia; rewrite Z2Nat.id by lia; desig_solve.
  - intros j Hj; rewrite designation_in_range in Hj by lia; desig_solve.
Qed.

Lemma render_prev : (2 <= n)%nat -> count "prev" = 1%nat.
Proof.
  intros Hn; unfold count; rewrite count_updateSlides by (simpl; auto).
  apply length_filter_unique with (a := Z.to_nat (prev_index idx (Z.of_nat n)));
    [unfold prev_index; desig_solve| |].
  - rewrite designation_in_range by lia; rewrite Z2Nat.id by (unfold prev_index; desig_solve).
    desig_solve.
  - intros j Hj; rewrite designation_in_range in Hj by lia; desig_solve.
Qed.

Lemma render_next : (3 <= n)%nat -> count "next" = 1%nat.
Proof.
  intros Hn; unfold count; rewrite count_updateSlides by (simpl; auto).
  apply length_filter_unique with (a := Z.to_nat (next_index idx (Z.of_nat n)));
    [unfold next_index; desig_solve| |].
  - rewrite designation_in_range by lia; rewrite Z2Nat.id by (unfold next_index; desig_solve).
    desig_solve.
  - intros j Hj; rewrite designation_in_range in Hj by lia; desig_solve.
Qed.

Lemma render_no_next : (n <= 2)%nat -> count "next" = 0%nat.
Proof.
  intros Hn; unfold count; rewrite count_updateSlides by (simpl; auto).
  apply length_filter_none; intros j Hj.
  rewrite designation_in_range by lia; desig_solve.
Qed.

Lemma render_no_prev : n = 1%nat -> count "prev" = 0%nat.
Proof.
  intros Hn; unfold count; rewrite count_updateSlides by (simpl; auto).
  apply length_filter_none; intros j Hj.
  rewrite designation_in_range by lia; desig_solve.
Qed.

End Render.
End CarouselRender.

(* ------------------------------------------------------------------ *)
(** ** Carousel: auto-advance timer bookkeeping *)

Module CarouselTimers.
Import Carousel.
Local Open Scope Z_scope.

Lemma stopAutoPlay_ok s :
  timers_ok s -> timers_ok (stopAutoPlay s) /\ autoPlayInterval (stopAutoPlay s) = None.
Proof.
  intros [Hn [[Ha Hi]|[t [Ha [Hi Ht]]]]]; unfold stopAutoPlay; rewrite Ha.
  - split; [split; [exact Hn|left; auto]|exact Ha].
  - unfold truthy; destruct (Z.eqb_spec t 0) as [|_]; [lia|]; simpl.
    rewrite Hi; unfold clearInterval; simpl; rewrite Z.eqb_refl; simpl.
    split; [split; [exact Hn|left; auto]|reflexivity].
Qed.

Lemma startAutoPlay_ok s :
  timers_ok s -> timers_ok (startAutoPlay s) /\
  intervals (startAutoPlay s) = [nextTimerId s].
Proof.
  intros H; destruct (stopAutoPlay_ok s H) as [[Hn [[Ha Hi]|[t [Ha _]]]] Hnone];
    [|congruence].
  assert (nextTimerId (stopAutoPlay s) = nextTimerId s) as Hid.
  { unfold stopAutoPlay; destruct (autoPlayInterval s) as [t|]; [|reflexivity].
    destruct (truthy (Some t)); reflexivity. }
  unfold startAutoPlay; cbn [intervals nextTimerId autoPlayInterval]; rewrite Hi, Hid.
  rewrite Hid in Hn.
  split; [|reflexivity]; split; [cbn; lia|right]; exists (nextTimerId s); cbn; repeat split; lia.
Qed.

Lemma updateCarousel_timers s :
  autoPlayInterval (updateCarousel s) = autoPlayInterval s /\
  intervals (updateCarousel s) = intervals s /\ nextTimerId (updateCarousel s) = nextTimerId s.
Proof. repeat split. Qed.

Lemma reachable_timers_ok s : reachable s -> timers_ok s.
Proof.
  induction 1 as [sl ds Hne|e s Hr IH He].
  - unfold init. apply (startAutoPlay_ok (mkCarousel 0 sl ds None [] 1)).
    split; [simpl; lia|left; auto].
  - destruct e; unfold handle.
    + exact IH.
    + exact IH.
    + apply stopAutoPlay_ok; exact IH.
    + apply startAutoPlay_ok; exact IH.
Qed.

End CarouselTimers.

(* ------------------------------------------------------------------ *)
(** ** Carousel: claims *)

Module CarouselClaims.
Import Carousel CarouselFacts CarouselInvariants CarouselRender CarouselTimers.
Local Open Scope Z_scope.

(** C1 (counterexample): with one slide, the single slide carries only
    "active", neither "prev" nor "next"; with two slides the non-active
    slide carries "prev" but not "next". *)
Lemma C1_counterexample :
  reachable (init [[]] [[]]) /\
  holds "prev" (init [[]] [[]]) 0 = false /\
  holds "next" (init [[]] [[]]) 0 = false /\
  reachable (init [[]; []] [[]; []]) /\
  holds "prev" (init [[]; []] [[]; []]) 1 = true /\
  holds "next" (init [[]; []] [[]; []]) 1 = false.
Proof.
  repeat split; try reflexivity; apply reach_init; discriminate.
Qed.

(** C1 (amended): after any sequence of dot clicks, timer ticks and hover
    changes following [init], on a page with no more dots than slides,
    exactly one slide holds "active" (the one at the current index), no
    slide holds two of "active", "prev", "next", and: with 3 or more
    slides exactly one holds "prev" and exactly one holds "next"; with 2
    slides the non-active one holds "prev" only and none holds "next";
    with 1 slide none holds "prev" or "next". *)
Theorem C1_designations_after_render s :
  reachable s -> (List.length (dots s) <= List.length (slides s))%nat ->
  count_holding "active" s = 1%nat /\
  holds "active" s (Z.to_nat (currentIndex s)) = true /\
  (forall j, holds "active" s j && holds "prev" s j = false /\
             holds "active" s j && holds "next" s j = false /\
             holds "prev" s j && holds "next" s j = false) /\
  ((3 <= List.length (slides s))%nat ->
     count_holding "prev" s = 1%nat /\ count_holding "next" s = 1%nat) /\
  (List.length (slides s) = 2%nat ->
     count_holding "prev" s = 1%nat /\ count_holding "next" s = 0%nat) /\
  (List.length (slides s) = 1%nat ->
     count_holding "prev" s = 0%nat /\ count_holding "next" s = 0%nat).
Proof.
  intros Hr Hd.
  pose proof (reachable_index_in_range s Hr Hd) as Hidx.
  destruct (reachable_rendered s Hr) as [raw Hraw].
  assert (List.length raw = List.length (slides s)) as Hlen
    by (rewrite Hraw; symmetry; apply updateSlides_length).
  rewrite <- Hlen in Hidx.
  unfold count_holding, holds; rewrite Hraw, !updateSlides_length, Hlen.
  rewrite <- Hlen.
  split; [|split; [|split; [|split; [|split]]]].
  - apply render_active; exact Hidx.
  - rewrite nth_updateSlides by (simpl; auto).
    apply andb_true_intro; split; [apply Nat.ltb_lt; lia|].
    rewrite designation_in_range by lia; rewrite Z2Nat.id by lia; desig_solve.
  - intros k; rewrite !nth_updateSlides by (simpl; auto).
    destruct (designation _ _ k) as [d|]; cbn [has_designation];
      [|now rewrite !Bool.andb_false_r].
    destruct (Nat.ltb k _); cbn [andb]; [|repeat split].
    destruct (String.eqb_spec "active" d), (String.eqb_spec "prev" d),
      (String.eqb_spec "next" d); subst; easy.
  - intros Hn; split; [apply render_prev|apply render_next]; (exact Hidx || lia).
  - intros Hn; split; [apply render_prev|apply render_no_next]; (exact Hidx || lia).
  - intros Hn; split; [apply render_no_prev|apply render_no_next]; (exact Hidx || lia).
Qed.

Lemma C1_designations_after_render_witness :
  reachable (init [[]; []; []] [[]; []; []]) /\
  (List.length (dots (init [[]; []; []] [[]; []; []]))
     <= List.length (slides (init [[]; []; []] [[]; []; []])))%nat /\
  count_holding "active" (init [[]; []; []] [[]; []; []]) = 1%nat.
Proof.
  assert (reachable (init [[]; []; []] [[]; []; []])) as Hr by (apply reach_init; discriminate).
  assert ((List.length (dots (init [[]; []; []] [[]; []; []]))
     <= List.length (slides (init [[]; []; []] [[]; []; []])))%nat) as Hd by (simpl; lia).
  split; [exact Hr|split; [exact Hd|]].
  exact (proj1 (C1_designations_after_render _ Hr Hd)).
Defined.

(** C2: from [init], every dot click, timer tick and hover change keeps
    the current index in [0, slideCount), on a page whose dots (the only
    callers of [goToSlide]) are no more than its slides, as the data
    model's index-aligned dots and slides are. *)
Theorem C2_index_in_range s :
  reachable s -> (List.length (dots s) <= List.length (slides s))%nat ->
  0 <= currentIndex s < Z.of_nat (List.length (slides s)).
Proof. exact (reachable_index_in_range s). Qed.

Lemma C2_index_in_range_witness :
  let s := handle (DotClick 1) (handle (IntervalFire 1) (init [[]; []] [[]; []])) in
  reachable s /\ 0 <= currentIndex s < Z.of_nat (List.length (slides s)).
Proof.
  assert (reachable (handle (DotClick 1) (handle (IntervalFire 1) (init [[]; []] [[]; []]))))
    as Hr.
  { apply reach_step; [apply reach_step; [apply reach_init; discriminate|]|]; reflexivity. }
  split; [exact Hr|]; apply (C2_index_in_range _ Hr); simpl; lia.
Defined.

Lemma nextSlide_slides_length s :
  List.length (slides (nextSlide s)) = List.length (slides s).
Proof. apply updateSlides_length. Qed.

Lemma nextSlide_index s :
  currentIndex (nextSlide s) = js_mod (currentIndex s + 1) (Z.of_nat (List.length (slides s))).
Proof. reflexivity. Qed.

Lemma iter_nextSlide s k :
  0 <= currentIndex s < Z.of_nat (List.length (slides s)) ->
  List.length (slides (Nat.iter k nextSlide s)) = List.length (slides s) /\
  currentIndex (Nat.iter k nextSlide s)
  = (currentIndex s + Z.of_nat k) mod Z.of_nat (List.length (slides s)).
Proof.
  intros H; induction k as [|k [IHl IHi]]; simpl Nat.iter.
  - split; [reflexivity|]; rewrite Z.add_0_r; symmetry; apply Z.mod_small; exact H.
  - split; [rewrite nextSlide_slides_length; exact IHl|].
    rewrite nextSlide_index, IHl, IHi, js_mod_nonneg.
    + rewrite Z.add_mod_idemp_l by lia; f_equal; lia.
    + pose proof (Z.mod_pos_bound (currentIndex s + Z.of_nat k)
                    (Z.of_nat (List.length (slides s)))); lia.
    + lia.
Qed.

(** C3: from any index in range, [slideCount] calls of [nextSlide]
    bring the index back to where it started. *)
Theorem C3_cyclic_closure s :
  0 <= currentIndex s < Z.of_nat (List.length (slides s)) ->
  currentIndex (Nat.iter (List.length (slides s)) nextSlide s) = currentIndex s.
Proof.
  intros H; destruct (iter_nextSlide s (List.length (slides s)) H) as [_ ->].
  rewrite <- (Z.add_0_r (currentIndex s)) at 2.
  rewrite <- Z.add_mod_idemp_r, Z_mod_same_full, Z.add_0_r by lia.
  apply Z.mod_small; exact H.
Qed.

Lemma C3_cyclic_closure_witness :
  let s := goToSlide 2 (init [[]; []; []; []] [[]; []; []; []]) in
  0 <= currentIndex s < Z.of_nat (List.length (slides s)) /\
  currentIndex (Nat.iter (List.length (slides s)) nextSlide s) = currentIndex s.
Proof.
  assert (0 <= currentIndex (goToSlide 2 (init [[]; []; []; []] [[]; []; []; []]))
    < Z.of_nat (List.length (slides (goToSlide 2 (init [[]; []; []; []] [[]; []; []; []])))))
    as H by (simpl; lia).
  split; [exact H|exact (C3_cyclic_closure _ H)].
Defined.

(** C4: [startAutoPlay] first clears the interval it had started, so in
    every state reached from [init] by any sequence of events (hover
    changes start and stop auto-advance) at most one interval timer is
    live, starting leaves exactly one live timer, and the previous timer
    is no longer live. *)
Theorem C4_single_autoplay_timer s :
  reachable s ->
  (List.length (intervals s) <= 1)%nat /\
  List.length (intervals (startAutoPlay s)) = 1%nat /\
  (forall t, autoPlayInterval s = Some t -> ~ In t (intervals (startAutoPlay s))).
Proof.
  intros Hr; pose proof (reachable_timers_ok s Hr) as Hok.
  destruct (startAutoPlay_ok s Hok) as [_ Hstart]; rewrite Hstart.
  destruct Hok as [Hn [[Ha Hi]|[t [Ha [Hi Ht]]]]]; split.
  - rewrite Hi; simpl; lia.
  - split; [reflexivity|]; intros t Ht; congruence.
  - rewrite Hi; simpl; lia.
  - split; [reflexivity|]; intros u Hu [Heq|[]]; rewrite Ha in Hu; injection Hu; lia.
Qed.

Lemma C4_single_autoplay_timer_witness :
  let s := handle MouseLeave (handle MouseLeave (init [[]; []] [[]; []])) in
  reachable s /\ List.length (intervals (startAutoPlay s)) = 1%nat.
Proof.
  assert (reachable (handle MouseLeave (handle MouseLeave (init [[]; []] [[]; []])))) as Hr.
  { apply reach_step; [apply reach_step; [apply reach_init; discriminate|]|]; reflexivity. }
  split; [exact Hr|exact (proj1 (proj2 (C4_single_autoplay_timer _ Hr)))].
Defined.

End CarouselClaims.

(* ------------------------------------------------------------------ *)
(** ** Image fallback: claims *)

Module ImageFallbackClaims.
Import ImageFallback.

(** C5: the product-type keywords are tested before the brand keywords
    and the first match wins: "Artisan Dark Chocolate Truffle" gets the
    card placeholder, "Hero banner" the banner placeholder, "Logo" no
    replacement; any alt text containing a product keyword gets the card
    placeholder whatever brand keywords it also contains. *)
Theorem C5_fallback_keyword_order :
  createFallbackElement "Artisan Dark Chocolate Truffle" = Some product_placeholder /\
  createFallbackElement "Hero banner" = Some image_fallback /\
  createFallbackElement "Logo" = None /\
  (forall alt,
     (includes (toLowerCase alt) "truffle" || includes (toLowerCase alt) "praline"
      || includes (toLowerCase alt) "bark")%bool = true ->
     createFallbackElement alt = Some product_placeholder) /\
  (forall alt,
     (includes (toLowerCase alt) "truffle" || includes (toLowerCase alt) "praline"
      || includes (toLowerCase alt) "bark")%bool = false ->
     (includes (toLowerCase alt) "hero" || includes (toLowerCase alt) "chocolate"
      || includes (toLowerCase alt) "artisan")%bool = true ->
     createFallbackElement alt = Some image_fallback).
Proof.
  split; [vm_compute; reflexivity|].
  split; [vm_compute; reflexivity|].
  split; [vm_compute; reflexivity|].
  split.
  - intros alt H; unfold createFallbackElement; rewrite H; reflexivity.
  - intros alt H1 H2; unfold createFallbackElement; rewrite H1, H2; reflexivity.
Qed.

End ImageFallbackClaims.

(* ------------------------------------------------------------------ *)
(** ** Particle and ripple bursts: what one burst does *)

Module EffectsFacts.
Import Effects.
Local Open Scope Q_scope.

Lemma getBoundingRect_ok el r w :
  geom el = GeomOk r -> getBoundingRect el w = Ok (Some r) w.
Proof.
  intros H; unfold getBoundingRect, try_catch, bind, getBoundingClientRect; rewrite H; reflexivity.
Qed.

Lemma getBoundingRect_throws el e w :
  geom el = GeomThrows e -> getBoundingRect el w = Ok None (warned w).
Proof.
  intros H; unfold getBoundingRect, try_catch, bind, getBoundingClientRect; rewrite H; reflexivity.
Qed.

Lemma createRippleEffect_ok ev r w :
  geom (control w) = GeomOk r ->
  createRippleEffect ev w =
  Ok tt (mkWorld (body w)
           (mkElement (geom (control w)) "relative" "hidden"
              ((children (control w) ++ [ripple_of ev r (fresh w)])%list))
           ((timeouts w ++ [(RIPPLE_LIFE, RippleCleanup (fresh w) (position (control w)))])%list)
           (frames w) (console w) (S (fresh w))).
Proof.
  intros H; destruct w as [b [g pos ov kids] t f co fr]; cbn in H; subst g; reflexivity.
Qed.

Lemma createRippleEffect_throws ev e w :
  geom (control w) = GeomThrows e -> createRippleEffect ev w = Ok tt (warned w).
Proof.
  intros H; destruct w as [b [g pos ov kids] t f co fr]; cbn in H; subst g; reflexivity.
Qed.

Lemma createParticleAnimation_throws el e w :
  geom el = GeomThrows e -> createParticleAnimation el w = Ok tt (warned w).
Proof.
  intros H; unfold createParticleAnimation, bind at 1.
  rewrite (getBoundingRect_throws _ e w H); reflexivity.
Qed.

Lemma spawn_S cx cy i k ps w :
  spawn cx cy i (S k) ps w =
  spawn cx cy (S i) k ((ps ++ [NParticle (mkParticle (fresh w) cx cy i None)])%list)
    (mkWorld ((body w ++ [NParticle (mkParticle (fresh w) cx cy i None)])%list) (control w)
       (timeouts w) ((frames w ++ [AnimateParticle (fresh w) i])%list) (console w) (S (fresh w))).
Proof. reflexivity. Qed.

Lemma map_seq_succ {A} (f : nat -> A) k :
  map f (seq 0 (S k)) = f 0%nat :: map (fun j => f (S j)) (seq 0 k).
Proof. simpl; f_equal; rewrite <- seq_shift, map_map; reflexivity. Qed.

Lemma spawn_ok cx cy i k ps w :
  spawn cx cy i k ps w =
  Ok ((ps ++ spawned cx cy (fresh w) i k)%list)
     (mkWorld ((body w ++ spawned cx cy (fresh w) i k)%list) (control w) (timeouts w)
        ((frames w ++ spawned_frames (fresh w) i k)%list) (console w) (fresh w + k)).
Proof.
  revert i ps w; induction k as [|k IH]; intros i ps w.
  - unfold spawned, spawned_frames; simpl; rewrite !app_nil_r, Nat.add_0_r.
    destruct w; reflexivity.
  - rewrite spawn_S, IH; cbn [body frames fresh control timeouts console].
    unfold spawned, spawned_frames; rewrite !map_seq_succ, <- !app_assoc; simpl.
    setoid_rewrite Nat.add_succ_r; rewrite !Nat.add_0_r; reflexivity.
Qed.

Lemma createParticleAnimation_ok el r w :
  geom el = GeomOk r ->
  createParticleAnimation el w =
  Ok tt (mkWorld
           ((body w ++ spawned (rleft r + rwidth r / 2) (rtop r + rheight r / 2)
                         (fresh w) 0 PARTICLES_COUNT)%list)
           (control w)
           ((timeouts w ++ [(PARTICLE_LIFE,
               RemoveParticles (map node_id (spawned (rleft r + rwidth r / 2)
                                  (rtop r + rheight r / 2) (fresh w) 0 PARTICLES_COUNT)))])%list)
           ((frames w ++ spawned_frames (fresh w) 0 PARTICLES_COUNT)%list)
           (console w) (fresh w + PARTICLES_COUNT)).
Proof.
  intros H; unfold createParticleAnimation, bind at 1; cbv beta.
  rewrite (getBoundingRect_ok _ r w H); cbv beta iota.
  unfold bind; rewrite spawn_ok; reflexivity.
Qed.

Lemma spawned_ids cx cy id0 i k :
  map node_id (spawned cx cy id0 i k) = map (fun j => (id0 + j)%nat) (seq 0 k).
Proof. unfold spawned; rewrite map_map; reflexivity. Qed.

Lemma attached_removeChild id x b :
  attached id (removeChild x b) = (attached id b && negb (Nat.eqb id x))%bool.
Proof.
  induction b as [|n b IH]; simpl; [reflexivity|].
  destruct (Nat.eqb_spec (node_id n) x) as [Hx|Hx]; simpl.
  - rewrite IH; destruct (Nat.eqb_spec (node_id n) id), (Nat.eqb_spec id x); simpl;
      try reflexivity; try lia; now rewrite Bool.andb_false_r.
  - rewrite IH; destruct (Nat.eqb_spec (node_id n) id); simpl; [|reflexivity].
    destruct (Nat.eqb_spec id x); [lia|reflexivity].
Qed.

Lemma remove_step_keeps_detached id x b :
  attached id b = false -> attached id (remove_step b x) = false.
Proof.
  intros H; unfold remove_step; destruct (attached x b); [|exact H].
  rewrite attached_removeChild, H; reflexivity.
Qed.

Lemma remove_step_detaches x b : attached x (remove_step b x) = false.
Proof.
  unfold remove_step; destruct (attached x b) eqn:E; [|exact E].
  rewrite attached_removeChild, Nat.eqb_refl, Bool.andb_false_r; reflexivity.
Qed.

Lemma fold_remove_keeps_detached id ids b :
  attached id b = false -> attached id (fold_left remove_step ids b) = false.
Proof.
  revert b; induction ids as [|x ids IH]; intros b H; simpl; [exact H|].
  apply IH, remove_step_keeps_detached, H.
Qed.

Lemma fold_remove_detaches id ids b :
  In id ids -> attached id (fold_left remove_step ids b) = false.
Proof.
  revert b; induction ids as [|x ids IH]; intros b Hin; [destruct Hin|]; simpl.
  destruct Hin as [->|Hin].
  - apply fold_remove_keeps_detached, remove_step_detaches.
  - apply IH, Hin.
Qed.

Lemma runTimeout_RemoveParticles ids w :
  body (runTimeout (RemoveParticles ids) w) = fold_left remove_step ids (body w).
Proof. reflexivity. Qed.

Lemma runTimeout_overflow cb w :
  overflow (control (runTimeout cb w)) = overflow (control w).
Proof. destruct cb; reflexivity. Qed.

Lemma runFrame_control rnd cb w : control (runFrame rnd cb w) = control w.
Proof. destruct cb; reflexivity. Qed.

Lemma runTimeout_ripple_position id o w :
  position (control (runTimeout (RippleCleanup id o) w)) = o.
Proof. reflexivity. Qed.

Lemma runTimeout_ripple_children id o w :
  children (control (runTimeout (RippleCleanup id o) w)) =
  if attached id (children (control w)) then removeChild id (children (control w))
  else children (control w).
Proof. reflexivity. Qed.

Lemma NoDup_map_shift a l : NoDup l -> NoDup (map (fun j => (a + j)%nat) l).
Proof.
  induction 1 as [|x l Hx Hl IH]; simpl; constructor; [|exact IH].
  intros Hin; apply in_map_iff in Hin as [y [Hy Hin]].
  assert (y = x) by lia; subst y; contradiction.
Qed.

End EffectsFacts.

(* ------------------------------------------------------------------ *)
(** ** Particle and ripple bursts: claims *)

Module EffectsClaims.
Import Effects EffectsFacts.
Local Open Scope Q_scope.

(** C6: whatever the control's inline position was (the empty value
    included), a ripple burst sets it to "relative" with overflow
    "hidden", attaches the ripple and schedules its cleanup after
    [RIPPLE_LIFE] = 600 ms; the cleanup, whatever happened to the page
    in between, detaches the ripple and sets the position back to the
    value it had before the burst. *)
Theorem C6_ripple_restores_position ev r w :
  geom (control w) = GeomOk r ->
  match createRippleEffect ev w with
  | Ok _ w1 =>
      position (control w1) = "relative" /\
      overflow (control w1) = "hidden" /\
      attached (fresh w) (children (control w1)) = true /\
      timeouts w1 = (timeouts w ++ [(RIPPLE_LIFE, RippleCleanup (fresh w) (position (control w)))])%list /\
      RIPPLE_LIFE = 600%Z /\
      (forall w',
         position (control (runTimeout (RippleCleanup (fresh w) (position (control w))) w'))
           = position (control w) /\
         attached (fresh w)
           (children (control (runTimeout (RippleCleanup (fresh w) (position (control w))) w')))
           = false)
  | Throw _ _ => False
  end.
Proof.
  intros H; rewrite (createRippleEffect_ok ev r w H); cbn [control position overflow children timeouts].
  split; [reflexivity|split; [reflexivity|split; [|split; [reflexivity|split; [reflexivity|]]]]].
  - unfold attached; rewrite existsb_app; simpl; rewrite Nat.eqb_refl, Bool.orb_true_r; reflexivity.
  - intros w'; rewrite runTimeout_ripple_position, runTimeout_ripple_children; split; [reflexivity|].
    destruct (attached (fresh w) (children (control w'))) eqn:E; [|exact E].
    rewrite attached_removeChild, Nat.eqb_refl, Bool.andb_false_r; reflexivity.
Qed.

Lemma C6_ripple_restores_position_witness :
  let w := mkWorld [] (mkElement (GeomOk (mkRect 0 0 80 40)) "" "" []) [] [] [] 0 in
  geom (control w) = GeomOk (mkRect 0 0 80 40) /\
  position (control (runTimeout (RippleCleanup 0 "")
    (match createRippleEffect (mkMouseEvent 10 10) w with Ok _ w1 => w1 | Throw _ w1 => w1 end)))
  = "".
Proof.
  assert (geom (control (mkWorld [] (mkElement (GeomOk (mkRect 0 0 80 40)) "" "" []) [] [] [] 0))
          = GeomOk (mkRect 0 0 80 40)) as H by reflexivity.
  split; [exact H|].
  pose proof (C6_ripple_restores_position (mkMouseEvent 10 10) _ _ H) as C.
  destruct (createRippleEffect _ _) as [a w1|e w1]; [|destruct C].
  exact (proj1 ((proj2 (proj2 (proj2 (proj2 (proj2 C))))) w1)).
Defined.

(** C7: on an element whose geometry can be read, a particle burst
    appends exactly [PARTICLES_COUNT] = 8 particles with distinct
    identities to the body, all placed at the element's center, and
    schedules after [PARTICLE_LIFE] = 1000 ms a cleanup that, whatever
    happened in between (animation frames run or not), leaves none of
    them attached. *)
Theorem C7_particle_burst el r w :
  geom el = GeomOk r ->
  createParticleAnimation el w =
  Ok tt (mkWorld
           ((body w ++ spawned (rleft r + rwidth r / 2) (rtop r + rheight r / 2)
                         (fresh w) 0 PARTICLES_COUNT)%list)
           (control w)
           ((timeouts w ++ [(PARTICLE_LIFE,
               RemoveParticles (map (fun j => (fresh w + j)%nat) (seq 0 PARTICLES_COUNT)))])%list)
           ((frames w ++ spawned_frames (fresh w) 0 PARTICLES_COUNT)%list)
           (console w) (fresh w + PARTICLES_COUNT)) /\
  List.length (spawned (rleft r + rwidth r / 2) (rtop r + rheight r / 2)
                 (fresh w) 0 PARTICLES_COUNT) = 8%nat /\
  NoDup (map node_id (spawned (rleft r + rwidth r / 2) (rtop r + rheight r / 2)
                        (fresh w) 0 PARTICLES_COUNT)) /\
  Forall (fun n => exists p, n = NParticle p /\ p_left p = rleft r + rwidth r / 2 /\
                             p_top p = rtop r + rheight r / 2)
    (spawned (rleft r + rwidth r / 2) (rtop r + rheight r / 2) (fresh w) 0 PARTICLES_COUNT) /\
  PARTICLE_LIFE = 1000%Z /\
  (forall w' id, In id (map (fun j => (fresh w + j)%nat) (seq 0 PARTICLES_COUNT)) ->
     attached id (body (runTimeout (RemoveParticles
                          (map (fun j => (fresh w + j)%nat) (seq 0 PARTICLES_COUNT))) w')) = false).
Proof.
  intros H; split; [rewrite (createParticleAnimation_ok el r w H), spawned_ids; reflexivity|].
  split; [reflexivity|].
  split; [rewrite spawned_ids; apply NoDup_map_shift, seq_NoDup|].
  split; [|split; [reflexivity|]].
  + unfold spawned; apply Forall_map, Forall_forall; intros j _; eexists; repeat split.
  + intros w' id Hin; rewrite runTimeout_RemoveParticles; apply fold_remove_detaches, Hin.
Qed.

Lemma C7_particle_burst_witness :
  geom (mkElement (GeomOk (mkRect 10 20 200 100)) "" "" []) = GeomOk (mkRect 10 20 200 100) /\
  List.length (spawned (10 + 200 / 2) (20 + 100 / 2) 0 0 PARTICLES_COUNT) = 8%nat.
Proof.
  assert (geom (mkElement (GeomOk (mkRect 10 20 200 100)) "" "" []) = GeomOk (mkRect 10 20 200 100))
    as H by reflexivity.
  split; [exact H|].
  exact (proj1 (proj2 (C7_particle_burst _ _ (mkWorld [] (mkElement (GeomOk (mkRect 0 0 1 1)) "" "" [])
                                                  [] [] [] 0) H))).
Defined.

(** C9: when [getBoundingClientRect] throws on the source element of a
    particle burst, that burst completes normally (no exception escapes)
    and only logs the warning; when it throws on the control of a ripple
    burst, the same holds for that burst. Each case stands alone,
    whatever the other element's geometry. The warned page has the same
    body, control, pending timeouts and frame callbacks, and supply of
    node identities: nothing is created or attached. *)
Theorem C9_geometry_failure_skips_effect :
  (forall el w e, geom el = GeomThrows e -> createParticleAnimation el w = Ok tt (warned w)) /\
  (forall ev w e, geom (control w) = GeomThrows e -> createRippleEffect ev w = Ok tt (warned w)) /\
  (forall w,
     body (warned w) = body w /\ control (warned w) = control w /\
     timeouts (warned w) = timeouts w /\ frames (warned w) = frames w /\
     fresh (warned w) = fresh w /\
     console (warned w) = (console w ++ ["Error getting bounding rect:"])%list).
Proof.
  split; [intros el w e H; exact (createParticleAnimation_throws el e w H)|].
  split; [intros ev w e H; exact (createRippleEffect_throws ev e w H)|].
  intros w; repeat split.
Qed.

(** A particle burst on a card whose geometry fails, on a page whose
    ripple control reads its geometry. *)
Lemma C9_geometry_failure_skips_effect_witness :
  let w := mkWorld [] (mkElement (GeomOk (mkRect 0 0 80 40)) "" "" []) [] [] [] 0 in
  createParticleAnimation (mkElement (GeomThrows "InvalidStateError") "" "" []) w = Ok tt (warned w).
Proof.
  exact (proj1 C9_geometry_failure_skips_effect
           (mkElement (GeomThrows "InvalidStateError") "" "" [])
           (mkWorld [] (mkElement (GeomOk (mkRect 0 0 80 40)) "" "" []) [] [] [] 0)
           "InvalidStateError" eq_refl).
Defined.

(** C10: the ripple cleanup restores only the position; the overflow it
    forced to "hidden" stays "hidden" after the cleanup whatever it was
    before the burst, and no timeout or animation-frame callback of
    these controllers ever writes the control's overflow. *)
Theorem C10_overflow_stays_hidden ev r w :
  geom (control w) = GeomOk r ->
  match createRippleEffect ev w with
  | Ok _ w1 =>
      overflow (control (runTimeout (RippleCleanup (fresh w) (position (control w))) w1)) = "hidden" /\
      (forall cb w', overflow (control (runTimeout cb w')) = overflow (control w')) /\
      (forall rnd cb w', overflow (control (runFrame rnd cb w')) = overflow (control w'))
  | Throw _ _ => False
  end.
Proof.
  intros H; rewrite (createRippleEffect_ok ev r w H).
  split; [reflexivity|split].
  - intros cb w'; apply runTimeout_overflow.
  - intros rnd cb w'; rewrite runFrame_control; reflexivity.
Qed.

Lemma C10_overflow_stays_hidden_witness :
  let w := mkWorld [] (mkElement (GeomOk (mkRect 0 0 80 40)) "" "visible" []) [] [] [] 0 in
  geom (control w) = GeomOk (mkRect 0 0 80 40) /\
  overflow (control (runTimeout (RippleCleanup 0 "")
    (match createRippleEffect (mkMouseEvent 10 10) w with Ok _ w1 => w1 | Throw _ w1 => w1 end)))
  = "hidden".
Proof.
  assert (geom (control (mkWorld [] (mkElement (GeomOk (mkRect 0 0 80 40)) "" "visible" []) [] [] [] 0))
          = GeomOk (mkRect 0 0 80 40)) as H by reflexivity.
  split; [exact H|].
  pose proof (C10_overflow_stays_hidden (mkMouseEvent 10 10) _ _ H) as C.
  destruct (createRippleEffect _ _) as [a w1|e w1]; [|destruct C].
  exact (proj1 C).
Defined.

End EffectsClaims.

(* ------------------------------------------------------------------ *)
(** ** Navigation anchors: claims *)

Module NavigationClaims.
Import Navigation.

(** C8 (code defect): clicking the "#main-content" navigation link runs
    the navigation listener, which scrolls to the hero section, and then
    the listener [ScrollController] binds to every [a[href^="#"]], which
    scrolls to the element with id "main-content"; the last smooth
    scroll, where the page ends up, is to that element. For every other
    in-page anchor both listeners resolve the same [querySelector(href)]. *)
Theorem C8_main_content_also_scrolls_to_literal_target :
  clickNavLink true page_with_main main_content_link = [LDone true (Some 3); LDone true (Some 2)] /\
  scrolls (clickNavLink true page_with_main main_content_link) = [3; 2] /\
  elem_id (nth 2 page_with_main main_content_link) = "main-content" /\
  classes (nth 3 page_with_main main_content_link) = ["hero"] /\
  (forall navbar doc link h,
     href link = Some h -> prefix "#" h = true -> h <> "#main-content" ->
     Forall (fun r => r = anchorSmoothScrollListener doc h) (clickNavLink navbar doc link)).
Proof.
  split; [vm_compute; reflexivity|].
  split; [vm_compute; reflexivity|].
  split; [reflexivity|].
  split; [reflexivity|].
  intros navbar doc link h Hh Hp Hne; unfold clickNavLink; rewrite Hh.
  apply Forall_app; split.
  - destruct navbar; constructor; [|constructor].
    unfold navSmoothScrollListener, anchorSmoothScrollListener; rewrite Hp.
    destruct (String.eqb_spec h "#main-content") as [|_]; [contradiction|reflexivity].
  - destruct (is_hash_anchor link); repeat constructor.
Qed.

End NavigationClaims.

(* ------------------------------------------------------------------ *)
(** ** Carousel: further properties of the re-render pass and timers *)

Module CarouselExtra.
Import Carousel CarouselView CarouselFacts CarouselInvariants CarouselTimers.
Local Open Scope Z_scope.

Lemma forEach_index_compose {A B C} (f : nat -> B -> C) (g : nat -> A -> B) i l :
  forEach_index f i (forEach_index g i l) = forEach_index (fun j x => f j (g j x)) i l.
Proof. revert i; induction l as [|x l IH]; intros i; simpl; [reflexivity|]; now rewrite IH. Qed.

Lemma forEach_index_ext {A B} (f g : nat -> A -> B) i l :
  (forall j x, f j x = g j x) -> forEach_index f i l = forEach_index g i l.
Proof. intros H; revert i; induction l as [|x l IH]; intros i; simpl; [reflexivity|]; now rewrite H, IH. Qed.

Lemma classList_remove_app cs l1 l2 :
  classList_remove cs (l1 ++ l2)%list = (classList_remove cs l1 ++ classList_remove cs l2)%list.
Proof. apply filter_app. Qed.

Lemma classList_remove_idem cs cl :
  classList_remove cs (classList_remove cs cl) = classList_remove cs cl.
Proof.
  unfold classList_remove; induction cl as [|c cl IH]; simpl; [reflexivity|].
  destruct (existsb (String.eqb c) cs) eqn:E; simpl; [exact IH|rewrite E; simpl; f_equal; exact IH].
Qed.

Lemma classList_remove_add_removed c cs cl :
  In c cs ->
  classList_remove cs (classList_add c (classList_remove cs cl)) = classList_remove cs cl.
Proof.
  intros Hc; unfold classList_add; rewrite classList_contains_remove by exact Hc.
  rewrite classList_remove_app, classList_remove_idem; simpl.
  assert (existsb (String.eqb c) cs = true) as E
    by (apply existsb_exists; exists c; split; [exact Hc|apply String.eqb_refl]).
  rewrite E; simpl; apply app_nil_r.
Qed.

Lemma updateSlide_idem idx n j cl :
  updateSlide idx n j (updateSlide idx n j cl) = updateSlide idx n j cl.
Proof.
  unfold updateSlide at 2.
  destruct (Z.of_nat j =? idx) eqn:E1;
    [|destruct (Z.of_nat j =? js_mod (idx - 1 + n) n) eqn:E2;
      [|destruct (Z.of_nat j =? js_mod (idx + 1) n) eqn:E3]];
    unfold updateSlide; rewrite ?E1, ?E2, ?E3;
    try (rewrite classList_remove_add_removed by (simpl; tauto));
    rewrite ?classList_remove_idem; reflexivity.
Qed.

Lemma classList_toggle_idem c b cl :
  classList_toggle c b (classList_toggle c b cl) = classList_toggle c b cl.
Proof.
  destruct b; simpl.
  - unfold classList_add at 1; rewrite classList_contains_add, String.eqb_refl; reflexivity.
  - apply classList_remove_idem.
Qed.

Lemma classList_contains_toggle c b cl :
  classList_contains c (classList_toggle c b cl) = b.
Proof.
  destruct b; simpl.
  - rewrite classList_contains_add, String.eqb_refl; reflexivity.
  - apply classList_contains_remove; simpl; auto.
Qed.

(** X1: rendering is idempotent: a second [updateCarousel] with the
    state unchanged leaves every slide and dot as the first left it. *)
Theorem updateCarousel_idempotent s :
  updateCarousel (updateCarousel s) = updateCarousel s.
Proof.
  unfold updateCarousel; cbn [currentIndex slides dots autoPlayInterval intervals nextTimerId].
  f_equal.
  - unfold updateSlides at 1; rewrite updateSlides_length; unfold updateSlides.
    rewrite forEach_index_compose; apply forEach_index_ext; intros; apply updateSlide_idem.
  - unfold updateDots; rewrite forEach_index_compose; apply forEach_index_ext; intros;
      apply classList_toggle_idem.
Qed.

Lemma reachable_dots_rendered s :
  reachable s -> exists raw, dots s = updateDots (currentIndex s) raw.
Proof.
  induction 1 as [sl ds Hne|e s Hr IH He].
  - eexists; reflexivity.
  - destruct e; unfold handle; try (eexists; reflexivity).
    + destruct (stopAutoPlay_fields s) as [-> [_ ->]]; exact IH.
    + destruct (startAutoPlay_fields s) as [-> [_ ->]]; exact IH.
Qed.

(** X2: in every state reached from [init], the k-th dot holds "active"
    exactly when k is the current index. *)
Theorem reachable_dot_active s k :
  reachable s -> (k < List.length (dots s))%nat ->
  dot_active s k = (Z.of_nat k =? currentIndex s).
Proof.
  intros Hr Hk; destruct (reachable_dots_rendered s Hr) as [raw Hraw].
  unfold dot_active; rewrite Hraw in *; unfold updateDots in *.
  rewrite forEach_index_length in Hk.
  rewrite (nth_forEach_index (fun index dot => classList_toggle "active" (Z.of_nat index =? currentIndex s) dot)
             [] [] 0 raw k Hk).
  apply classList_contains_toggle.
Qed.

Lemma reachable_dot_active_witness :
  reachable (init [[]; []; []] [[]; []; []]) /\
  dot_active (init [[]; []; []] [[]; []; []]) 0 = true.
Proof.
  assert (reachable (init [[]; []; []] [[]; []; []])) as Hr by (apply reach_init; discriminate).
  split; [exact Hr|].
  rewrite (reachable_dot_active _ 0 Hr) by (simpl; lia); reflexivity.
Defined.

(** X3: [goToSlide] does not check its argument: an index below 0 or at
    least the slide count leaves no slide holding "active", and no dot
    that has a matching slide. *)
Theorem goToSlide_out_of_range_no_active i s :
  (i < 0 \/ Z.of_nat (List.length (slides s)) <= i) ->
  count_holding "active" (goToSlide i s) = 0%nat /\
  (forall k, (k < List.length (dots s))%nat -> (k < List.length (slides s))%nat ->
     dot_active (goToSlide i s) k = false).
Proof.
  intros Hi; split.
  - unfold count_holding, goToSlide, updateCarousel; cbn [slides currentIndex set_index].
    rewrite count_updateSlides by (simpl; auto).
    apply length_filter_none; intros j Hj; unfold designation, has_designation.
    destruct (Z.eqb_spec (Z.of_nat j) i); [lia|].
    destruct (Z.of_nat j =? _); [reflexivity|]; destruct (Z.of_nat j =? _); reflexivity.
  - intros k Hk Hks; unfold dot_active, goToSlide, updateCarousel, updateDots; cbn [dots currentIndex set_index].
    rewrite (nth_forEach_index (fun index dot => classList_toggle "active" (Z.of_nat index =? i) dot)
               [] [] 0 (dots s) k Hk).
    rewrite classList_contains_toggle; apply Z.eqb_neq; lia.
Qed.

Lemma goToSlide_out_of_range_no_active_witness :
  count_holding "active" (goToSlide 3 (init [[]; []; []] [[]; []; []; []])) = 0%nat.
Proof.
  exact (proj1 (goToSlide_out_of_range_no_active 3 (init [[]; []; []] [[]; []; []; []])
                  (or_intror (Z.le_refl 3)))).
Defined.

(** X4: stopping auto-play twice is the same as stopping it once. *)
Theorem stopAutoPlay_idempotent s : stopAutoPlay (stopAutoPlay s) = stopAutoPlay s.
Proof.
  unfold stopAutoPlay; destruct (autoPlayInterval s) as [t|] eqn:E; [|now rewrite E].
  destruct (truthy (Some t)) eqn:T; [reflexivity|now rewrite E, T].
Qed.

(** X5: hovering the carousel leaves no live interval timer; leaving it
    starts exactly one timer, with an id no earlier timer had. *)
Theorem hover_pauses_and_restarts s :
  reachable s ->
  intervals (handle MouseEnter s) = [] /\ autoPlayInterval (handle MouseEnter s) = None /\
  intervals (handle MouseLeave s) = [nextTimerId s] /\ ~ In (nextTimerId s) (intervals s).
Proof.
  intros Hr; pose proof (reachable_timers_ok s Hr) as Hok.
  destruct (stopAutoPlay_ok s Hok) as [[_ [[Ha Hi]|[t [Ha _]]]] Hnone]; [|congruence].
  split; [exact Hi|split; [exact Hnone|split]].
  - exact (proj2 (startAutoPlay_ok s Hok)).
  - destruct Hok as [Hn [[_ Hi']|[t [_ [Hi' Ht]]]]]; rewrite Hi'; simpl; [tauto|].
    intros [H|[]]; lia.
Qed.

Lemma hover_pauses_and_restarts_witness :
  reachable (init [[]] [[]]) /\ intervals (handle MouseEnter (init [[]] [[]])) = [].
Proof.
  assert (reachable (init [[]] [[]])) as Hr by (apply reach_init; discriminate).
  split; [exact Hr|exact (proj1 (hover_pauses_and_restarts _ Hr))].
Defined.

(** X6: from an index in range, [nextSlide] moves to the following slide
    and wraps from the last slide to the first. *)
Theorem nextSlide_wraps s :
  0 <= currentIndex s < Z.of_nat (List.length (slides s)) ->
  currentIndex (nextSlide s) =
  if currentIndex s + 1 =? Z.of_nat (List.length (slides s)) then 0 else currentIndex s + 1.
Proof. intros H; apply js_mod_next, H. Qed.

Lemma nextSlide_wraps_witness :
  currentIndex (nextSlide (goToSlide 2 (init [[]; []; []] [[]; []; []]))) = 0.
Proof.
  rewrite (nextSlide_wraps (goToSlide 2 (init [[]; []; []] [[]; []; []]))) by (simpl; lia).
  reflexivity.
Defined.

End CarouselExtra.

(* ------------------------------------------------------------------ *)
(** ** Particle and ripple bursts: geometry and cleanup *)

Module EffectsExtra.
Import Effects EffectsFacts.
Local Open Scope Q_scope.

(** X7: the animation frame of particle [index] gives it the angle
    [45 * index] degrees and, for [Math.random()] in [0, 1), a distance
    between 100 and 150, both included (in floating point the sum can
    round up to 150). *)
Theorem runFrame_particle_transform rnd id index w p :
  0 <= rnd < 1 -> In (NParticle p) (body w) -> p_id p = id ->
  exists a d,
    In (NParticle (mkParticle id (p_left p) (p_top p) (p_index p) (Some (a, d))))
       (body (runFrame rnd (AnimateParticle id index) w)) /\
    a == 45 * inject_Z (Z.of_nat index) /\ 100 <= d <= 150.
Proof.
  intros Hr Hin Hid.
  exists ((360 / inject_Z (Z.of_nat PARTICLES_COUNT)) * inject_Z (Z.of_nat index)),
         (DISTANCE_BASE + rnd * DISTANCE_RANDOM).
  split; [|split].
  - cbn [runFrame body with_body].
    apply in_map_iff; exists (NParticle p); split; [|exact Hin].
    rewrite Hid, Nat.eqb_refl, <- Hid; reflexivity.
  - setoid_replace (360 / inject_Z (Z.of_nat PARTICLES_COUNT)) with 45 by reflexivity; reflexivity.
  - unfold DISTANCE_BASE, DISTANCE_RANDOM; lra.
Qed.

Lemma runFrame_particle_transform_witness :
  exists a d,
    In (NParticle (mkParticle 0 0 0 3 (Some (a, d))))
       (body (runFrame (1 # 2) (AnimateParticle 0 3)
                (mkWorld [NParticle (mkParticle 0 0 0 3 None)]
                   (mkElement (GeomOk (mkRect 0 0 10 10)) "" "" []) [] [] [] 1))) /\
    a == 45 * inject_Z (Z.of_nat 3) /\ 100 <= d <= 150.
Proof.
  apply (runFrame_particle_transform (1 # 2) 0 3
           (mkWorld [NParticle (mkParticle 0 0 0 3 None)]
              (mkElement (GeomOk (mkRect 0 0 10 10)) "" "" []) [] [] [] 1)
           (mkParticle 0 0 0 3 None)).
  - split; vm_compute; [intros Hc; discriminate Hc|reflexivity].
  - simpl; left; reflexivity.
  - reflexivity.
Defined.

Lemma Qmax_ge_l a b : a <= Qmax a b.
Proof.
  unfold Qmax; destruct (Qle_bool a b) eqn:E; [apply Qle_bool_iff, E|apply Qle_refl].
Qed.

Lemma Qmax_ge_r a b : b <= Qmax a b.
Proof.
  unfold Qmax; destruct (Qle_bool a b) eqn:E; [apply Qle_refl|].
  apply Qlt_le_weak, Qnot_le_lt; intros H; apply Qle_bool_iff in H; congruence.
Qed.

Lemma Qmax_cases a b : Qmax a b = a \/ Qmax a b = b.
Proof. unfold Qmax; destruct (Qle_bool a b); [right|left]; reflexivity. Qed.

(** X8: when the control's geometry can be read, the burst appends one
    ripple as the control's last child, with a fresh identity; the
    ripple's side is [Math.max(width, height)]: one of the two, and at
    least both. *)
Theorem ripple_square_larger_side ev r w :
  geom (control w) = GeomOk r ->
  exists rp w',
    createRippleEffect ev w = Ok tt w' /\
    children (control w') = (children (control w) ++ [NRipple rp])%list /\
    r_id rp = fresh w /\ r_size rp = Qmax (rwidth r) (rheight r) /\
    (r_size rp = rwidth r \/ r_size rp = rheight r) /\
    rwidth r <= r_size rp /\ rheight r <= r_size rp.
Proof.
  intros H; rewrite (createRippleEffect_ok ev r w H).
  set (size := Qmax (rwidth r) (rheight r)).
  eexists (mkRipple (fresh w) size (clientX ev - rleft r - size / 2) (clientY ev - rtop r - size / 2)),
          _.
  split; [reflexivity|]; split; [reflexivity|]; split; [reflexivity|]; split; [reflexivity|].
  cbn [r_size]; split; [apply Qmax_cases|split; [apply Qmax_ge_l|apply Qmax_ge_r]].
Qed.

Lemma ripple_square_larger_side_witness :
  exists rp w',
    createRippleEffect (mkMouseEvent 15 12)
      (mkWorld [] (mkElement (GeomOk (mkRect 10 10 40 20)) "" "" []) [] [] [] 0) = Ok tt w' /\
    children (control w') = [NRipple rp] /\
    r_id rp = 0%nat /\ r_size rp = Qmax 40 20 /\
    (r_size rp = 40 \/ r_size rp = 20) /\ 40 <= r_size rp /\ 20 <= r_size rp.
Proof.
  exact (ripple_square_larger_side (mkMouseEvent 15 12) (mkRect 10 10 40 20)
           (mkWorld [] (mkElement (GeomOk (mkRect 10 10 40 20)) "" "" []) [] [] [] 0) eq_refl).
Defined.

(** X9: an animation frame neither adds, removes nor reorders the body's
    nodes, and leaves every node other than its particle as it was. *)
Theorem runFrame_keeps_other_nodes rnd id index w :
  map node_id (body (runFrame rnd (AnimateParticle id index) w)) = map node_id (body w) /\
  (forall k n, nth_error (body w) k = Some n -> node_id n <> id ->
     nth_error (body (runFrame rnd (AnimateParticle id index) w)) k = Some n).
Proof.
  cbn [runFrame body with_body]; split.
  - rewrite map_map; apply map_ext; intros [p|rp]; [|reflexivity].
    destruct (Nat.eqb (p_id p) id); reflexivity.
  - intros k n Hk Hn; rewrite nth_error_map, Hk; cbn [option_map]; f_equal.
    destruct n as [p|rp]; [|reflexivity]; cbn in Hn.
    apply Nat.eqb_neq in Hn; rewrite Hn; reflexivity.
Qed.

Lemma remove_step_filter b x :
  remove_step b x = filter (fun n => negb (Nat.eqb (node_id n) x)) b.
Proof.
  unfold remove_step, removeChild; destruct (attached x b) eqn:E; [reflexivity|].
  symmetry; apply forallb_filter_id, forallb_forall; intros n Hn.
  destruct (Nat.eqb_spec (node_id n) x) as [Hx|Hx]; [|reflexivity].
  assert (attached x b = true) as T by (apply existsb_exists; exists n; split; [exact Hn|apply Nat.eqb_eq, Hx]).
  congruence.
Qed.

Lemma filter_filter_and {A} (p q : A -> bool) l :
  filter p (filter q l) = filter (fun x => (q x && p x)%bool) l.
Proof.
  induction l as [|x l IH]; simpl; [reflexivity|].
  destruct (q x); simpl; [destruct (p x); simpl; rewrite IH; reflexivity|exact IH].
Qed.

(** X10: the particle cleanup removes from the body exactly the nodes
    whose identities it captured and keeps every other node, in order. *)
Theorem removeParticles_filter ids w :
  body (runTimeout (RemoveParticles ids) w) =
  filter (fun n => negb (existsb (Nat.eqb (node_id n)) ids)) (body w).
Proof.
  rewrite runTimeout_RemoveParticles; generalize (body w) as b.
  induction ids as [|x ids IH]; intros b; simpl.
  - symmetry; apply forallb_filter_id, forallb_forall; reflexivity.
  - rewrite IH, remove_step_filter, filter_filter_and; apply filter_ext; intros n.
    destruct (Nat.eqb (node_id n) x); reflexivity.
Qed.

End EffectsExtra.

(* ------------------------------------------------------------------ *)
(** ** Press feedback: cards and buttons *)

Module FeedbackExtra.
Import Effects EffectsFacts Feedback.

Lemma spawned_length cx cy id0 i k : List.length (spawned cx cy id0 i k) = k.
Proof. unfold spawned; rewrite length_map, length_seq; reflexivity. Qed.

(** X11: a card click never throws; it always sets the press transform
    and schedules one reset after [FAST] ms, and adds eight particles to
    the body when the card's geometry can be read, only a warning when
    it cannot. *)
Theorem handleCardClick_feedback card s :
  exists w',
    handleCardClick card s = Done (mkStyled w' "scale(0.98)" ((resets s ++ [FAST])%list)) /\
    match geom card with
    | GeomOk _ => List.length (body w') = (List.length (body (page s)) + PARTICLES_COUNT)%nat
    | GeomThrows _ => w' = warned (page s)
    end.
Proof.
  unfold handleCardClick, run_effect; destruct (geom card) as [r|e] eqn:G.
  - rewrite (createParticleAnimation_ok card r (page s) G).
    eexists; split; [reflexivity|]; cbn [body page press].
    rewrite length_app, spawned_length; reflexivity.
  - rewrite (createParticleAnimation_throws card e (page s) G).
    eexists; split; reflexivity.
Qed.

(** X12: a button click never throws; it always sets the press
    transform, schedules one reset after [FAST] ms, and once that reset
    has run the transform is "", whatever it was before the click. When
    the button's geometry can be read, the ripple also sets
    [position: relative]; once the ripple cleanup has run the inline
    position is the one before the click and the overflow stays
    "hidden". When it cannot be read, only the warning is added and
    position, overflow and the other timeouts are untouched. *)
Theorem button_click_timers ev s :
  exists s1,
    buttonClickListener ev s = Done s1 /\
    transform s1 = "scale(0.98)" /\ resets s1 = (resets s ++ [FAST])%list /\
    transform (runReset s1) = "" /\
    match geom (control (page s)) with
    | GeomOk _ =>
        position (control (page s1)) = "relative" /\
        In (RIPPLE_LIFE, RippleCleanup (fresh (page s)) (position (control (page s))))
           (timeouts (page s1)) /\
        position (control (runTimeout (RippleCleanup (fresh (page s)) (position (control (page s))))
                             (page (runReset s1)))) = position (control (page s)) /\
        overflow (control (runTimeout (RippleCleanup (fresh (page s)) (position (control (page s))))
                             (page (runReset s1)))) = "hidden"
    | GeomThrows _ => page s1 = warned (page s)
    end.
Proof.
  unfold buttonClickListener, run_effect.
  destruct (geom (control (page s))) as [r|e] eqn:G.
  - rewrite (createRippleEffect_ok ev r (page s) G).
    eexists; split; [reflexivity|].
    unfold addButtonPressEffect, press; cbn [transform page control position resets timeouts].
    unfold runReset; cbn [resets]; destruct (resets s ++ [FAST])%list eqn:E;
      [destruct (resets s); discriminate|].
    split; [reflexivity|split; [reflexivity|split; [reflexivity|]]].
    split; [reflexivity|split; [|split; reflexivity]].
    apply in_or_app; right; left; reflexivity.
  - rewrite (createRippleEffect_throws ev e (page s) G).
    eexists; split; [reflexivity|].
    unfold addButtonPressEffect, press, runReset; cbn [transform page resets].
    destruct (resets s ++ [FAST])%list eqn:E; [destruct (resets s); discriminate|].
    split; [reflexivity|split; [reflexivity|split; reflexivity]].
Qed.

Lemma button_click_timers_witness :
  exists s1,
    buttonClickListener (mkMouseEvent 5 5)
      (mkStyled (mkWorld [] (mkElement (GeomThrows "InvalidStateError") "static" "" []) [] [] [] 0)
         "rotate(3deg)" []) = Done s1 /\
    transform s1 = "scale(0.98)" /\ resets s1 = [FAST] /\ transform (runReset s1) = "" /\
    page s1 = warned (mkWorld [] (mkElement (GeomThrows "InvalidStateError") "static" "" []) [] [] [] 0).
Proof.
  exact (button_click_timers (mkMouseEvent 5 5)
           (mkStyled (mkWorld [] (mkElement (GeomThrows "InvalidStateError") "static" "" []) [] [] [] 0)
              "rotate(3deg)" [])).
Defined.

End FeedbackExtra.

(* ------------------------------------------------------------------ *)
(** ** Parallax: one frame callback per animation frame *)

Module ParallaxExtra.
Import Parallax.

(** A parallax callback is queued exactly while [ticking] is set. *)
Definition frame_ok (s : Parallax) : Prop := queued s = if ticking s then 1%nat else 0%nat.

Lemma step_frame_ok hasHero s e : frame_ok s -> frame_ok (step hasHero s e).
Proof.
  unfold frame_ok; intros H; destruct e as [y|]; cbn [step].
  - unfold handleScroll; cbn [ticking queued].
    destruct (ticking s); cbn; rewrite H; reflexivity.
  - destruct (queued s) as [|q] eqn:Q; [rewrite Q; exact H|].
    destruct (ticking s); [|discriminate]; injection H as ->; reflexivity.
Qed.

Lemma run_frame_ok hasHero s es : frame_ok s -> frame_ok (run hasHero s es).
Proof.
  unfold run; revert s; induction es as [|e es IH]; intros s H; simpl; [exact H|].
  apply IH, step_frame_ok, H.
Qed.

(** X13: however the page scrolls, at most one parallax callback waits
    for the next animation frame, and one waits exactly while the
    [ticking] flag is set. *)
Theorem parallax_single_frame hasHero y es :
  queued (run hasHero (initial y) es) = if ticking (run hasHero (initial y) es) then 1%nat else 0%nat.
Proof. apply run_frame_ok; reflexivity. Qed.

Lemma run_app hasHero s es1 es2 : run hasHero s (es1 ++ es2) = run hasHero (run hasHero s es1) es2.
Proof. unfold run; apply fold_left_app. Qed.

Lemma scrolls_then hasHero s ys y :
  frame_ok s ->
  let s' := run hasHero s (map Scroll (ys ++ [y])) in
  pageYOffset s' = y /\ ticking s' = true /\ queued s' = 1%nat /\
  hero_from s' = hero_from s /\ textures_from s' = textures_from s.
Proof.
  revert s; induction ys as [|y0 ys IH]; intros s H; cbv zeta.
  - unfold run; cbn [map app fold_left step]; unfold handleScroll; cbn [ticking].
    unfold frame_ok in H; destruct (ticking s) eqn:T; cbn; rewrite H; repeat split.
  - assert (hero_from (step hasHero s (Scroll y0)) = hero_from s /\
            textures_from (step hasHero s (Scroll y0)) = textures_from s) as [Hh Hx]
      by (cbn [step]; unfold handleScroll; cbn [ticking]; destruct (ticking s); split; reflexivity).
    destruct (IH (step hasHero s (Scroll y0)) (step_frame_ok _ _ _ H)) as [A [B [C [D E]]]].
    change (run hasHero s (map Scroll ((y0 :: ys) ++ [y])))
      with (run hasHero (step hasHero s (Scroll y0)) (map Scroll (ys ++ [y]))).
    rewrite D, E, Hh, Hx in *; split; [exact A|split; [exact B|split; [exact C|split; reflexivity]]].
Qed.

(** X14: a burst of scroll events followed by an animation frame updates
    the parallax transforms once, from the offset of the last scroll,
    and re-arms the listener. *)
Theorem parallax_uses_last_offset hasHero s ys y :
  frame_ok s ->
  let s' := run hasHero s ((map Scroll (ys ++ [y]) ++ [Frame])%list) in
  ticking s' = false /\ queued s' = 0%nat /\ textures_from s' = Some y /\
  hero_from s' = (if hasHero then Some y else hero_from s).
Proof.
  intros H; cbv zeta; rewrite run_app.
  destruct (scrolls_then hasHero s ys y H) as [Hy [Ht [Hq [Hh Hx]]]].
  destruct (run hasHero s (map Scroll (ys ++ [y]))) as [o t q hf tf]; cbn in *; subst.
  repeat split.
Qed.

Lemma parallax_uses_last_offset_witness :
  hero_from (run true (initial 0) ((map Scroll ([10%Z; 20%Z] ++ [30%Z]) ++ [Frame])%list)) = Some 30%Z.
Proof.
  exact (proj2 (proj2 (proj2 (parallax_uses_last_offset true (initial 0) [10; 20]%Z 30%Z eq_refl)))).
Defined.

End ParallaxExtra.

(* ------------------------------------------------------------------ *)
(** ** Fade-in reveal: each element is revealed once *)

Module RevealExtra.
Import Reveal.

(** Every fade-in element is still observed or already running. *)
Definition reveal_ok (ids0 : list nat) (s : Reveal) : Prop :=
  map t_id (targets s) = ids0 /\ incl (observed s) ids0 /\
  (forall t, In t (targets s) -> In (t_id t) (observed s) \/ playState t = "running").

Lemma map_t_id_setPlayState id st ts : map t_id (setPlayState id st ts) = map t_id ts.
Proof.
  unfold setPlayState; rewrite map_map; apply map_ext; intros t.
  destruct (Nat.eqb (t_id t) id); reflexivity.
Qed.

Lemma in_setPlayState id st ts t' :
  In t' (setPlayState id st ts) ->
  exists t, In t ts /\ ((t_id t = id /\ t' = mkTarget (t_id t) st) \/ (t_id t <> id /\ t' = t)).
Proof.
  unfold setPlayState; intros H; apply in_map_iff in H as [t [Ht Hin]].
  exists t; split; [exact Hin|].
  destruct (Nat.eqb_spec (t_id t) id); [left|right]; auto.
Qed.

Lemma in_unobserve x id obs : In x (unobserve id obs) <-> In x obs /\ x <> id.
Proof.
  unfold unobserve; rewrite filter_In; destruct (Nat.eqb_spec x id); intuition discriminate.
Qed.

Lemma onEntry_ok ids0 s e : reveal_ok ids0 s -> reveal_ok ids0 (onEntry s e).
Proof.
  intros [Hids [Hincl Hall]]; unfold onEntry; destruct e as [id b]; cbn [fst snd].
  destruct b; [|split; [exact Hids|split; assumption]].
  split; [|split]; cbn [targets observed].
  - rewrite map_t_id_setPlayState; exact Hids.
  - intros x Hx; apply in_unobserve in Hx; apply Hincl, Hx.
  - intros t' Ht'; apply in_setPlayState in Ht' as [t [Hin [[Heq ->]|[Hne ->]]]].
    + right; reflexivity.
    + destruct (Hall t Hin) as [Ho|Hr]; [left; apply in_unobserve; split; assumption|right; exact Hr].
Qed.

Lemma callback_ok ids0 s entries : reveal_ok ids0 s -> reveal_ok ids0 (callback s entries).
Proof.
  unfold callback; revert s; induction entries as [|e es IH]; intros s H; simpl; [exact H|].
  apply IH, onEntry_ok, H.
Qed.

(** X15: after any sequence of observer callbacks, the fade-in elements
    are the same, the observer watches only some of them, and an
    element is no longer observed only once its animation is running. *)
Theorem reveal_observed_or_running ts batches :
  let s := fold_left callback batches (setup ts) in
  map t_id (targets s) = map t_id ts /\ incl (observed s) (map t_id ts) /\
  (forall t, In t (targets s) -> In (t_id t) (observed s) \/ playState t = "running").
Proof.
  cbv zeta; assert (reveal_ok (map t_id ts) (setup ts)) as H0
    by (split; [reflexivity|split; [intros x Hx; exact Hx|intros t Ht; left; apply in_map, Ht]]).
  revert H0; generalize (setup ts); induction batches as [|b bs IH]; intros s H; simpl; [exact H|].
  apply IH, callback_ok, H.
Qed.

(** Every element with identity [id] runs and [id] is not observed. *)
Definition revealed (id : nat) (s : Reveal) : Prop :=
  (forall t, In t (targets s) -> t_id t = id -> playState t = "running") /\ ~ In id (observed s).

Lemma onEntry_revealed id s e : revealed id s -> revealed id (onEntry s e).
Proof.
  intros [Hr Ho]; unfold onEntry; destruct e as [x b]; cbn [fst snd]; destruct b; [|split; assumption].
  split; cbn [targets observed].
  - intros t' Ht' Hid; apply in_setPlayState in Ht' as [t [Hin [[_ ->]|[_ ->]]]]; [reflexivity|].
    apply Hr; assumption.
  - rewrite in_unobserve; intros [H _]; exact (Ho H).
Qed.

Lemma onEntry_reveals id s : revealed id (onEntry s (id, true)).
Proof.
  split; cbn [onEntry fst snd targets observed].
  - intros t' Ht' Hid; apply in_setPlayState in Ht' as [t [Hin [[_ ->]|[Hne ->]]]];
      [reflexivity|contradiction].
  - rewrite in_unobserve; intros [_ H]; apply H; reflexivity.
Qed.

Lemma fold_onEntry_revealed id s es : revealed id s -> revealed id (fold_left onEntry es s).
Proof.
  revert s; induction es as [|e es IH]; intros s H; simpl; [exact H|].
  apply IH, onEntry_revealed, H.
Qed.

(** X16: a callback whose batch reports an element as intersecting
    leaves it running and no longer observed, whatever the other entries
    of the batch say. *)
Theorem callback_reveals id s entries :
  In (id, true) entries -> revealed id (callback s entries).
Proof.
  unfold callback; revert s; induction entries as [|e es IH]; intros s Hin; [destruct Hin|]; simpl.
  destruct Hin as [->|Hin].
  - apply fold_onEntry_revealed, onEntry_reveals.
  - apply IH, Hin.
Qed.

Lemma callback_reveals_witness :
  revealed 1 (callback (setup [mkTarget 0 "paused"; mkTarget 1 "paused"]) [(0, false); (1, true); (1, false)]).
Proof.
  apply (callback_reveals 1 (setup [mkTarget 0 "paused"; mkTarget 1 "paused"])
           [(0, false); (1, true); (1, false)]).
  simpl; right; left; reflexivity.
Defined.

End RevealExtra.

(* ------------------------------------------------------------------ *)
(** ** Debounce: one pending call, with the latest arguments *)

Module DebounceExtra.
Import Debounce.
Local Open Scope Z_scope.

Section Facts.
Context {A : Type}.

(** No pending timer, or a single one, which [timeout] refers to. *)
Definition debounce_ok (s : Debounce A) : Prop :=
  pending s = [] \/
  exists id a, pending s = [(id, a)] /\ timeout s = Some id /\ id < nextId s.

Lemma clearTimeout_ok s : debounce_ok s -> clearTimeout (timeout s) (pending s) = [].
Proof.
  intros [H|[id [a [H [Ht _]]]]]; rewrite H; [destruct (timeout s); reflexivity|].
  rewrite Ht; simpl; rewrite Z.eqb_refl; reflexivity.
Qed.

Lemma executedFunction_ok a s :
  debounce_ok s ->
  executedFunction a s = mkDebounce (Some (nextId s)) [(nextId s, a)] (nextId s + 1) (calls s).
Proof. intros H; unfold executedFunction; rewrite (clearTimeout_ok s H); reflexivity. Qed.

Lemma step_ok s e : debounce_ok s -> debounce_ok (step s e).
Proof.
  intros H; destruct e as [a|id]; cbn [step].
  - rewrite (executedFunction_ok a s H); right; exists (nextId s), a; cbn; repeat split; lia.
  - unfold fire; destruct H as [H|[i [a [H [Ht Hi]]]]]; rewrite H; simpl; [left; exact H|].
    destruct (Z.eqb_spec i id) as [->|Hne]; simpl.
    + left; cbn; destruct (timeout s); reflexivity.
    + right; exists i, a; rewrite H; repeat split; assumption.
Qed.

(** X17: whatever the sequence of calls and timer firings, a debounced
    function has at most one pending timer, and it is the one its
    [timeout] variable refers to. *)
Theorem debounce_single_pending (es : list (devent A)) :
  let s := fold_left step es initial in
  (List.length (pending s) <= 1)%nat /\ (forall p, In p (pending s) -> timeout s = Some (fst p)).
Proof.
  cbv zeta; assert (debounce_ok (fold_left step es initial)) as H.
  { generalize (@initial A) (or_introl eq_refl : debounce_ok (@initial A)).
    induction es as [|e es IH]; intros s Hs; simpl; [exact Hs|apply IH, step_ok, Hs]. }
  destruct H as [H|[id [a [H [Ht _]]]]]; rewrite H.
  - split; [simpl; lia|intros p []].
  - split; [simpl; lia|intros p [<-|[]]; exact Ht].
Qed.

Lemma calls_burst s xs a :
  debounce_ok s ->
  fold_left step (map Call (xs ++ [a])) s =
  mkDebounce (Some (nextId s + Z.of_nat (List.length xs)))
    [(nextId s + Z.of_nat (List.length xs), a)]
    (nextId s + Z.of_nat (List.length xs) + 1) (calls s).
Proof.
  revert s; induction xs as [|x xs IH]; intros s H; simpl.
  - rewrite (executedFunction_ok a s H); f_equal; f_equal; [f_equal; lia|f_equal; f_equal; lia|lia].
  - rewrite (executedFunction_ok x s H).
    assert (debounce_ok (mkDebounce (Some (nextId s)) [(nextId s, x)] (nextId s + 1) (calls s))) as H'
      by (right; exists (nextId s), x; cbn; repeat split; lia).
    rewrite (IH _ H'); cbn [nextId calls].
    f_equal; [f_equal; lia|f_equal; f_equal; lia|lia].
Qed.

(** X18: after a burst of calls, the pending timer, when it fires,
    calls the function once, with the arguments of the last call of the
    burst, and leaves nothing pending. *)
Theorem debounce_fires_last s xs a :
  debounce_ok s ->
  let s' := fold_left step (map Call (xs ++ [a])) s in
  pending s' = [(nextId s + Z.of_nat (List.length xs), a)] /\ calls s' = calls s /\
  calls (fire (nextId s + Z.of_nat (List.length xs)) s') = (calls s ++ [a])%list /\
  pending (fire (nextId s + Z.of_nat (List.length xs)) s') = [].
Proof.
  intros H; cbv zeta; rewrite (calls_burst s xs a H); unfold fire; cbn [pending calls timeout].
  simpl; rewrite Z.eqb_refl; simpl.
  split; [reflexivity|split; [reflexivity|split; reflexivity]].
Qed.

End Facts.

Lemma debounce_fires_last_witness :
  calls (fire 3 (fold_left step (map Call ([10; 20] ++ [30])%list) (@initial Z))) = [30].
Proof.
  exact (proj1 (proj2 (proj2 (debounce_fires_last (@initial Z) [10; 20] 30 (or_introl eq_refl))))).
Defined.

End DebounceExtra.

(* ------------------------------------------------------------------ *)
(** ** Mobile menu: [aria-expanded] and the menu's "active" class *)

Module MobileMenuExtra.
Import MobileMenu.

Lemma isExpanded_toggle m : isExpanded (toggleClick m) = negb (isExpanded m).
Proof. unfold toggleClick, isExpanded at 1; cbn; destruct (isExpanded m); reflexivity. Qed.

Lemma contains_flip c cl : classList_contains c (classList_flip c cl) = negb (classList_contains c cl).
Proof.
  unfold classList_flip; destruct (classList_contains c cl) eqn:E.
  - apply classList_contains_remove; simpl; auto.
  - rewrite classList_contains_add, String.eqb_refl; reflexivity.
Qed.

(** X19: the toggle keeps [aria-expanded] and the menu's "active" class
    in step (or out of step) as they were, and a link click brings them
    in step with the menu closed. *)
Theorem menu_sync m :
  in_sync (toggleClick m) = in_sync m /\
  isExpanded (linkClick m) = false /\
  classList_contains "active" (menuClasses (linkClick m)) = false /\ in_sync (linkClick m) = true.
Proof.
  split; [|split; [reflexivity|split]].
  - unfold in_sync; rewrite isExpanded_toggle; cbn [menuClasses toggleClick]; rewrite contains_flip.
    destruct (isExpanded m), (classList_contains "active" (menuClasses m)); reflexivity.
  - apply classList_contains_remove; simpl; auto.
  - unfold in_sync; cbn [linkClick menuClasses]; rewrite classList_contains_remove by (simpl; auto).
    reflexivity.
Qed.

(** X20: two clicks on the toggle bring back whether the menu is shown
    and what [aria-expanded] reports. *)
Theorem toggle_twice m :
  isExpanded (toggleClick (toggleClick m)) = isExpanded m /\
  classList_contains "active" (menuClasses (toggleClick (toggleClick m))) =
  classList_contains "active" (menuClasses m).
Proof.
  rewrite !isExpanded_toggle, negb_involutive; split; [reflexivity|].
  cbn [toggleClick menuClasses]; rewrite !contains_flip, negb_involutive; reflexivity.
Qed.

End MobileMenuExtra.

(* ------------------------------------------------------------------ *)
(** ** Broken images: replacement in place, at most once *)

Module ImageReplaceExtra.
Import ImageFallback ImageReplace.

Lemma handleImageError_armed id alt p : armed (handleImageError id alt p) = armed p.
Proof.
  unfold handleImageError; destruct (createFallbackElement alt); [|reflexivity].
  destruct (has_parent id p); reflexivity.
Qed.

(** X21: the [{ once: true }] listener handles the first error of an
    image only: a second error event changes nothing. *)
Theorem onError_once id alt alt' p : onError id alt' (onError id alt p) = onError id alt p.
Proof.
  unfold onError at 2; destruct (existsb (Nat.eqb id) (armed p)) eqn:E.
  - unfold onError; rewrite handleImageError_armed; cbn [armed].
    assert (existsb (Nat.eqb id) (filter (fun x => negb (Nat.eqb x id)) (armed p)) = false) as F.
    { apply Bool.not_true_iff_false; intros H; apply existsb_exists in H as [x [Hx Heq]].
      apply filter_In in Hx as [_ Hx]; apply Nat.eqb_eq in Heq; subst x.
      rewrite Nat.eqb_refl in Hx; discriminate. }
    rewrite F, E; reflexivity.
  - unfold onError; rewrite E; reflexivity.
Qed.

Lemma existsb_map_false {X Y} (f : X -> bool) (g : Y -> X) l :
  (forall x, f (g x) = false) -> existsb f (map g l) = false.
Proof. intros H; induction l as [|x l IH]; simpl; [reflexivity|]; rewrite H, IH; reflexivity. Qed.

(** X22: on the first error of an attached image whose [alt] selects a
    fallback, the fallback takes the image's place: every other child
    stays where it was and the image is no longer in the document. *)
Theorem onError_replaces_in_place id alt f p :
  existsb (Nat.eqb id) (armed p) = true -> createFallbackElement alt = Some f ->
  has_parent id p = true ->
  (forall i k, child_at (onError id alt p) i k =
               option_map (fun c => if is_img id c then CFallback f else c) (child_at p i k)) /\
  has_parent id (onError id alt p) = false.
Proof.
  intros Ha Hf Hp; unfold onError; rewrite Ha; unfold handleImageError; rewrite Hf.
  match goal with |- context [has_parent id ?q] =>
    replace (has_parent id q) with true by (symmetry; exact Hp) end.
  unfold replaceChild, child_at, has_parent; cbn [parents]; split.
  - intros i k; rewrite nth_error_map; destruct (nth_error (parents p) i) as [cs|]; [|reflexivity].
    cbn [option_map]; apply nth_error_map.
  - apply existsb_map_false; intros cs; apply existsb_map_false; intros c.
    destruct (is_img id c) eqn:E; [reflexivity|exact E].
Qed.

(** X23: an image whose [alt] names none of the keywords is left in the
    document after its error; only its listener is gone. *)
Theorem onError_no_keyword_keeps id alt p :
  createFallbackElement alt = None ->
  parents (onError id alt p) = parents p /\ existsb (Nat.eqb id) (armed (onError id alt p)) = false.
Proof.
  intros Hf; unfold onError; destruct (existsb (Nat.eqb id) (armed p)) eqn:E.
  - unfold handleImageError; rewrite Hf; cbn [parents armed]; split; [reflexivity|].
    apply Bool.not_true_iff_false; intros H; apply existsb_exists in H as [x [Hx Heq]].
    apply filter_In in Hx as [_ Hx]; apply Nat.eqb_eq in Heq; subst x.
    rewrite Nat.eqb_refl in Hx; discriminate.
  - split; [reflexivity|exact E].
Qed.

Lemma onError_no_keyword_keeps_witness :
  parents (onError 0 "Company logo" (mkPage [[CImg 0 "Company logo"]] [0])) = [[CImg 0 "Company logo"]].
Proof.
  exact (proj1 (onError_no_keyword_keeps 0 "Company logo" (mkPage [[CImg 0 "Company logo"]] [0])
                  ltac:(vm_compute; reflexivity))).
Defined.

Lemma onError_replaces_in_place_witness :
  has_parent 0 (onError 0 "Dark Truffle" (mkPage [[COther 1; CImg 0 "Dark Truffle"]] [0])) = false.
Proof.
  exact (proj2 (onError_replaces_in_place 0 "Dark Truffle" product_placeholder
                  (mkPage [[COther 1; CImg 0 "Dark Truffle"]] [0])
                  ltac:(reflexivity) ltac:(vm_compute; reflexivity) ltac:(reflexivity))).
Defined.

End ImageReplaceExtra.

(* ------------------------------------------------------------------ *)
(** ** In-page navigation: further cases *)

Module NavigationExtra.
Import Navigation.

(** X24: for a navigation link to [#x] other than [#main-content], with
    [x] a plain identifier, both click listeners scroll to the same
    element: the first with id [x], if any. *)
Theorem hash_link_scrolls_to_id doc link x :
  tagName link = "A" -> href link = Some (String "#" x) -> valid_ident x = true ->
  x <> "main-content" ->
  scrolls (clickNavLink true doc link) =
  match first_index_from (fun e => String.eqb (elem_id e) x) 0 doc with
  | Some t => [t; t]
  | None => []
  end.
Proof.
  intros Ht Hh Hv Hx; unfold clickNavLink, is_hash_anchor, navSmoothScrollListener,
    anchorSmoothScrollListener; rewrite Ht, Hh.
  assert (String.eqb (String "#" x) "#main-content" = false) as E.
  { apply String.eqb_neq; intros H; injection H as H; exact (Hx H). }
  rewrite E; cbn [String.eqb prefix Ascii.eqb andb app].
  unfold querySelector; rewrite Hv; cbn.
  destruct x as [|c x']; [discriminate Hv|]; cbn.
  destruct (first_index_from _ 0 doc); reflexivity.
Qed.

Lemma hash_link_scrolls_to_id_witness :
  scrolls (clickNavLink true [mkDomElement "A" "" ["navbar__link"] (Some "#story");
                              mkDomElement "SECTION" "story" [] None]
             (mkDomElement "A" "" ["navbar__link"] (Some "#story"))) = [1; 1].
Proof.
  exact (hash_link_scrolls_to_id
           [mkDomElement "A" "" ["navbar__link"] (Some "#story"); mkDomElement "SECTION" "story" [] None]
           (mkDomElement "A" "" ["navbar__link"] (Some "#story")) "story"
           eq_refl eq_refl ltac:(vm_compute; reflexivity) ltac:(discriminate)).
Defined.

(** X25: a navigation link whose [href] is just "#" makes both click
    listeners call [preventDefault] and then throw a [SyntaxError]
    ([document.querySelector('#')]): the click neither follows the link
    nor scrolls. *)
Theorem bare_hash_link_throws doc link :
  tagName link = "A" -> href link = Some "#" ->
  clickNavLink true doc link = [LThrew true "SyntaxError"; LThrew true "SyntaxError"].
Proof.
  intros Ht Hh; unfold clickNavLink, is_hash_anchor, navSmoothScrollListener,
    anchorSmoothScrollListener; rewrite Ht, Hh; reflexivity.
Qed.

Lemma bare_hash_link_throws_witness :
  clickNavLink true page_with_main (mkDomElement "A" "" ["navbar__link"] (Some "#")) =
  [LThrew true "SyntaxError"; LThrew true "SyntaxError"].
Proof.
  exact (bare_hash_link_throws page_with_main (mkDomElement "A" "" ["navbar__link"] (Some "#"))
           eq_refl eq_refl).
Defined.

(** X26: a navigation link to another page is left to the browser (no
    listener prevents the default or scrolls), and a navigation link
    without [href] makes the navigation listener throw a [TypeError]
    before it can prevent anything. *)
Theorem non_hash_links doc link :
  (forall h, href link = Some h -> prefix "#" h = false ->
     clickNavLink true doc link = [LDone false None]) /\
  (href link = None -> clickNavLink true doc link = [LThrew false "TypeError"]).
Proof.
  split.
  - intros h Hh Hp; unfold clickNavLink, is_hash_anchor, navSmoothScrollListener; rewrite Hh, Hp.
    rewrite Bool.andb_false_r; reflexivity.
  - intros Hh; unfold clickNavLink, is_hash_anchor, navSmoothScrollListener; rewrite Hh.
    rewrite Bool.andb_false_r; reflexivity.
Qed.

End NavigationExtra.

(* ------------------------------------------------------------------ *)
(** ** Start-up: a failing controller stops the rest *)

Module AppExtra.
Import App.

Lemma construct_prefix ctor done_ rest a e k :
  (forall j, (j < k)%nat -> ctor (nth j rest "") = None) ->
  (k < List.length rest)%nat -> ctor (nth k rest "") = Some e ->
  NoDup (done_ ++ rest)%list -> controllers a = done_ ->
  construct ctor rest a = inr (e, mkApp (done_ ++ firstn k rest)%list (head_styles a) (console a)).
Proof.
  revert done_ a k; induction rest as [|n rest IH]; intros done_ a k Hok Hk He Hnd Hc; [simpl in Hk; lia|].
  destruct k as [|k]; simpl.
  - simpl in He; rewrite He, app_nil_r, <- Hc; destruct a; reflexivity.
  - assert (ctor n = None) as Hn by exact (Hok 0%nat ltac:(lia)); rewrite Hn.
    assert (map_set n (controllers a) = (done_ ++ [n])%list) as Hs.
    { unfold map_set; rewrite Hc.
      destruct (existsb (String.eqb n) done_) eqn:E; [|reflexivity].
      apply existsb_exists in E as [y [Hy Hyn]]; apply String.eqb_eq in Hyn; subst y.
      apply NoDup_remove_2 in Hnd; exfalso; apply Hnd, in_or_app; left; exact Hy. }
    rewrite Hs; erewrite (IH (done_ ++ [n])%list); cbn [head_styles console].
    + rewrite <- app_assoc; reflexivity.
    + intros j Hj; apply (Hok (S j)); lia.
    + simpl in Hk; lia.
    + exact He.
    + rewrite <- app_assoc; exact Hnd.
    + reflexivity.
Qed.

(** X27: when the constructor of the [k]-th controller throws, the app
    keeps exactly the controllers before it, in order, adds no global
    styles and logs the error. *)
Theorem failing_controller_stops_rest ctor k e :
  (k < List.length controller_names)%nat ->
  (forall j, (j < k)%nat -> ctor (nth j controller_names "") = None) ->
  ctor (nth k controller_names "") = Some e ->
  initializeControllers ctor initialApp =
  mkApp (firstn k controller_names) 0 ["Error initializing ChocoCraft application:"].
Proof.
  intros Hk Hok He; unfold initializeControllers.
  rewrite (construct_prefix ctor [] controller_names initialApp e k Hok Hk He); [reflexivity| |reflexivity].
  simpl; repeat constructor; simpl; intuition discriminate.
Qed.

Lemma failing_controller_stops_rest_witness :
  initializeControllers (fun n => if String.eqb n "productCard" then Some "TypeError" else None)
    initialApp = mkApp ["animation"; "navigation"] 0 ["Error initializing ChocoCraft application:"].
Proof.
  apply (failing_controller_stops_rest
           (fun n => if String.eqb n "productCard" then Some "TypeError" else None) 2 "TypeError").
  - simpl; lia.
  - intros j Hj; destruct j as [|[|j]]; [reflexivity|reflexivity|lia].
  - reflexivity.
Defined.

(** X28: when no constructor throws, the app holds the seven controllers
    in the order it creates them, adds the global styles once and logs
    success. *)
Theorem all_controllers_initialized ctor :
  (forall n, In n controller_names -> ctor n = None) ->
  initializeControllers ctor initialApp =
  mkApp controller_names 1 ["ChocoCraft application initialized successfully"].
Proof.
  intros H; unfold initializeControllers, controller_names; simpl.
  rewrite !H by (simpl; tauto); reflexivity.
Qed.

Lemma all_controllers_initialized_witness :
  initializeControllers (fun _ => None) initialApp =
  mkApp controller_names 1 ["ChocoCraft application initialized successfully"].
Proof. exact (all_controllers_initialized (fun _ => None) (fun _ _ => eq_refl)). Defined.

End AppExtra.
